(** * 15445-bootcamp: the linked list of range_based_for.cpp and the
      move-only Person of move_constructors.cpp

    The two classes are embedded over explicit stores.

    - [DLL], [Node] and [DLL::DLLIterator] live over a heap of nodes indexed
      by 64-bit addresses; [nullptr] is address 0.  Reading or releasing an
      address that holds no node is undefined behaviour in C++ and is [None]
      here.  [new] is an interface ([Allocator]): it hands out some address
      that is free and not null, or fails.
    - [Person] objects live in an object store indexed by object identity,
      so that [p = std::move(p)] is the same operation as any other move
      assignment, run with [this] and [other] naming one object. *)

From stdpp Require Import base option list gmap strings pretty.

Open Scope Z_scope.

(** ** Machine integers *)

Definition size_t_modulus : Z := 2 ^ 64.

(** Arithmetic on [size_t] wraps around. *)
Definition size_t_wrap (z : Z) : Z := z `mod` size_t_modulus.

(** ** range_based_for.cpp *)

Module DLL.

(** A [Node *]; 0 is [nullptr]. *)
Abbreviation ptr := Z.

Definition nullptr : ptr := 0.

(** [value_] is an [int]; it is only stored and read back, never
    computed with. *)
Record Node : Type := mkNode {
  next_ : ptr;
  prev_ : ptr;
  value_ : Z
}.

(** [Node(int val) : next_(nullptr), prev_(nullptr), value_(val)] *)
Definition Node_new (val : Z) : Node :=
  {| next_ := nullptr; prev_ := nullptr; value_ := val |}.

Abbreviation heap := (gmap Z Node).

(** Reading through a pointer: [p->field].  Undefined through [nullptr] and
    through an address that holds no node. *)
Definition load (h : heap) (p : ptr) : option Node :=
  if decide (p = nullptr) then None else h !! p.

(** [p->next_ = q] *)
Definition store_next (h : heap) (p q : ptr) : option heap :=
  n ← load h p;
  Some (<[p := {| next_ := q; prev_ := prev_ n; value_ := value_ n |}]> h).

(** [p->prev_ = q] *)
Definition store_prev (h : heap) (p q : ptr) : option heap :=
  n ← load h p;
  Some (<[p := {| next_ := next_ n; prev_ := q; value_ := value_ n |}]> h).

(** [delete p] for a pointer known not to be null: the node must be live
    (releasing twice is undefined). *)
Definition delete_node (h : heap) (p : ptr) : option heap :=
  _ ← load h p;
  Some (delete p h).

(** [new Node(val)]: the address is chosen by the allocator; allocation can
    fail ([std::bad_alloc]). *)
Class Allocator : Type := {
  alloc : heap → option ptr
}.

(** What [new] promises: storage that is not in use, at an address that is
    not null and fits a pointer. *)
Class AllocatorLaws `{Allocator} : Prop := {
  alloc_fresh : ∀ h p, alloc h = Some p → h !! p = None;
  alloc_range : ∀ h p, alloc h = Some p → 0 < p < size_t_modulus
}.

Record DLL : Type := mkDLL {
  head_ : ptr;
  size_ : Z
}.

(** [DLL() : head_(nullptr), size_(0)] *)
Definition DLL_new : DLL := {| head_ := nullptr; size_ := 0 |}.

(** [void InsertAtHead(int val)] *)
Definition InsertAtHead `{Allocator} (val : Z) (s : heap * DLL)
  : option (heap * DLL) :=
  let '(h, d) := s in
  (* Node *new_node = new Node(val); *)
  new_node ← alloc h;
  let h1 := <[new_node := Node_new val]> h in
  (* new_node->next_ = head_; *)
  h2 ← store_next h1 new_node (head_ d);
  (* if (head_ != nullptr) { head_->prev_ = new_node; } *)
  h3 ← (if decide (head_ d ≠ nullptr)
        then store_prev h2 (head_ d) new_node
        else Some h2);
  (* head_ = new_node; size_ += 1; *)
  Some (h3, {| head_ := new_node; size_ := size_t_wrap (size_ d + 1) |}).

(** A run of [InsertAtHead] calls, first value first. *)
Fixpoint InsertAll `{Allocator} (vals : list Z) (s : heap * DLL)
  : option (heap * DLL) :=
  match vals with
  | [] => Some s
  | v :: vals' => s' ← InsertAtHead v s; InsertAll vals' s'
  end.

(** *** DLLIterator *)

Record DLLIterator : Type := mkIter { curr_ : ptr }.

(** [DLLIterator begin() { return DLLIterator(head_); }] *)
Definition begin (d : DLL) : DLLIterator := {| curr_ := head_ d |}.

(** [DLLIterator end() { return DLLIterator(nullptr); }] *)
Definition end_ (d : DLL) : DLLIterator := {| curr_ := nullptr |}.

(** Body of [operator++]: [curr_ = curr_->next_;] *)
Definition incr_body (h : heap) (it : DLLIterator) : option DLLIterator :=
  n ← load h (curr_ it);
  Some {| curr_ := next_ n |}.

(** [bool operator!=(const DLLIterator &itr) const] *)
Definition operator_ne (this itr : DLLIterator) : bool :=
  bool_decide (curr_ itr ≠ curr_ this).

(** [int operator*() { return curr_->value_; }] *)
Definition operator_deref (h : heap) (this : DLLIterator) : option Z :=
  n ← load h (curr_ this);
  Some (value_ n).

(** The loop of [operator+]:
    [for (size_t i = 0; i < offset; ++i) curr_ = curr_->next_;]
    The counter is the number of rounds still to run. *)
Fixpoint plus_loop (h : heap) (rounds : nat) (it : DLLIterator)
  : option DLLIterator :=
  match rounds with
  | O => Some it
  | S r => it' ← incr_body h it; plus_loop h r it'
  end.

(** Body of [operator+(size_t offset)]. *)
Definition plus_body (h : heap) (offset : Z) (it : DLLIterator)
  : option DLLIterator :=
  plus_loop h (Z.to_nat (size_t_wrap offset)) it.

(** Iterator objects by identity.  Both [operator++] and [operator+]
    change the object they are called on and [return *this;]: the result
    is a reference to that very object. *)
Abbreviation iterators := (gmap nat DLLIterator).

Definition on_this (body : DLLIterator → option DLLIterator)
    (this : nat) (σ : iterators) : option (nat * iterators) :=
  it ← σ !! this;
  it' ← body it;
  Some (this, <[this := it']> σ).

(** [DLLIterator &operator++()] *)
Definition operator_incr (h : heap) (this : nat) (σ : iterators)
  : option (nat * iterators) :=
  on_this (incr_body h) this σ.

(** [DLLIterator &operator+(size_t offset)] *)
Definition operator_plus (h : heap) (this : nat) (offset : Z) (σ : iterators)
  : option (nat * iterators) :=
  on_this (plus_body h offset) this σ.

(** [k] calls of [++it] in a row on the object [this]. *)
Fixpoint incr_times (h : heap) (k : nat) (this : nat) (σ : iterators)
  : option (nat * iterators) :=
  match k with
  | O => Some (this, σ)
  | S k' => '(r, σ') ← operator_incr h this σ; incr_times h k' r σ'
  end.

(** [*it] on an object of the store. *)
Definition deref_at (h : heap) (this : nat) (σ : iterators) : option Z :=
  it ← σ !! this; operator_deref h it.

(** The loop of [main]:
    [for (DLLIterator iter = dll.begin(); iter != dll.end(); ++iter)
       std::cout << *iter;]
    returning the values printed.  [fuel] bounds the number of tests of the
    loop condition. *)
Fixpoint traverse_from (fuel : nat) (h : heap) (d : DLL) (iter : DLLIterator)
  : option (list Z) :=
  match fuel with
  | O => None
  | S f =>
      if operator_ne iter (end_ d)
      then v ← operator_deref h iter;
           iter' ← incr_body h iter;
           rest ← traverse_from f h d iter';
           Some (v :: rest)
      else Some []
  end.

Definition traverse (fuel : nat) (h : heap) (d : DLL) : option (list Z) :=
  traverse_from fuel h d (begin d).

(** *** Destructor *)

(** The loop of [~DLL]:
    [while (current != nullptr) { Node *next = current->next_;
       delete current; current = next; }]
    [freed] records the addresses handed to [delete], in order. *)
Fixpoint dtor_loop (fuel : nat) (h : heap) (current : ptr) (freed : list ptr)
  : option (heap * list ptr) :=
  if decide (current ≠ nullptr) then
    match fuel with
    | O => None
    | S f =>
        n ← load h current;
        let next := next_ n in
        h' ← delete_node h current;
        dtor_loop f h' next (freed ++ [current])
    end
  else Some (h, freed).

(** [~DLL()]: the loop, then [head_ = nullptr;]. *)
Definition dtor (fuel : nat) (s : heap * DLL)
  : option (heap * DLL * list ptr) :=
  let '(h, d) := s in
  '(h', freed) ← dtor_loop fuel h (head_ d) [];
  Some (h', {| head_ := nullptr; size_ := size_ d |}, freed).

End DLL.

(** ** move_constructors.cpp *)

Module Person.

(** What the standard library leaves behind in a [std::vector<std::string>]
    that was the right-hand side of a move assignment.  The C++ standard
    only promises a valid state, so it is an interface here:
    [assigned_from] for [a = std::move(b)] with two vectors, [self_assigned]
    for [a = std::move(a)].  (After move *construction* the source is
    guaranteed empty.) *)
Class VectorMove : Type := {
  assigned_from : list string → list string;
  self_assigned : list string → list string
}.

(** libstdc++ and libc++: the buffer is stolen (or released) and the
    right-hand side ends up empty in both cases. *)
Definition stolen_buffer : VectorMove :=
  {| assigned_from := λ _, []; self_assigned := λ _, [] |}.

(** [age_] is a [uint32_t]; it is only stored, copied and read back. *)
Record Person : Type := mkPerson {
  age_ : Z;
  nicknames_ : list string;
  valid_ : bool
}.

(** Person objects by identity. *)
Abbreviation objects := (gmap nat Person).

(** Field writes, [o.field = x]. *)
Definition write_age (σ : objects) (o : nat) (a : Z) : option objects :=
  p ← σ !! o;
  Some (<[o := {| age_ := a; nicknames_ := nicknames_ p;
                  valid_ := valid_ p |}]> σ).

Definition write_nicknames (σ : objects) (o : nat) (ns : list string)
  : option objects :=
  p ← σ !! o;
  Some (<[o := {| age_ := age_ p; nicknames_ := ns; valid_ := valid_ p |}]> σ).

Definition write_valid (σ : objects) (o : nat) (b : bool) : option objects :=
  p ← σ !! o;
  Some (<[o := {| age_ := age_ p; nicknames_ := nicknames_ p;
                  valid_ := b |}]> σ).

(** A constructor runs on storage that holds no object yet. *)
Definition emplace (σ : objects) (this : nat) (p : Person) : option objects :=
  match σ !! this with
  | None => Some (<[this := p]> σ)
  | Some _ => None
  end.

(** [Person() : age_(0), nicknames_({}), valid_(true) {}] *)
Definition Person_default (this : nat) (σ : objects) : option objects :=
  emplace σ this {| age_ := 0; nicknames_ := []; valid_ := true |}.

(** [Person(uint32_t age, std::vector<std::string> &&nicknames)
      : age_(age), nicknames_(std::move(nicknames)), valid_(true) {}]
    The argument is a temporary vector, given here by its content. *)
Definition Person_direct (this : nat) (age : Z) (nicknames : list string)
    (σ : objects) : option objects :=
  emplace σ this {| age_ := age; nicknames_ := nicknames; valid_ := true |}.

(** [Person(Person &&person)
      : age_(person.age_), nicknames_(std::move(person.nicknames_)),
        valid_(true) { person.valid_ = false; }] *)
Definition Person_move (this person : nat) (σ : objects) : option objects :=
  src ← σ !! person;
  (* member initialisers; the vector moved from is left empty *)
  σ1 ← emplace σ this {| age_ := age_ src; nicknames_ := nicknames_ src;
                         valid_ := true |};
  σ2 ← write_nicknames σ1 person [];
  (* person.valid_ = false; *)
  write_valid σ2 person false.

(** [nicknames_ = std::move(other.nicknames_);] between the objects [dst]
    and [src], which may be one object. *)
Definition vector_move_assign `{VectorMove} (σ : objects) (dst src : nat)
  : option objects :=
  d ← σ !! dst;
  s ← σ !! src;
  if decide (dst = src)
  then write_nicknames σ dst (self_assigned (nicknames_ d))
  else σ' ← write_nicknames σ dst (nicknames_ s);
       write_nicknames σ' src (assigned_from (nicknames_ s)).

(** [Person &operator=(Person &&other)]; the result is the reference
    returned, [*this], and the store. *)
Definition operator_assign `{VectorMove} (this other : nat) (σ : objects)
  : option (nat * objects) :=
  (* age_ = other.age_; *)
  o ← σ !! other;
  σ1 ← write_age σ this (age_ o);
  (* nicknames_ = std::move(other.nicknames_); *)
  σ2 ← vector_move_assign σ1 this other;
  (* valid_ = true; *)
  σ3 ← write_valid σ2 this true;
  (* other.valid_ = false; *)
  σ4 ← write_valid σ3 other false;
  (* return *this; *)
  Some (this, σ4).

(** [uint32_t GetAge() { return age_; }] *)
Definition GetAge (σ : objects) (this : nat) : option Z :=
  age_ <$> σ !! this.

(** [std::string &GetNicknameAtI(size_t i) { return nicknames_[i]; }]
    [operator[]] is unchecked: out of range is undefined. *)
Definition GetNicknameAtI (σ : objects) (this : nat) (i : nat)
  : option string :=
  p ← σ !! this; nicknames_ p !! i.

(** The flag [PrintValid] branches on. *)
Definition is_valid (σ : objects) (this : nat) : option bool :=
  valid_ <$> σ !! this.

(** What [std::endl] writes: a newline (it also flushes the stream). *)
Definition endl : string := String (Ascii.ascii_of_nat 10) "".

(** [void PrintValid()], as the text written to [std::cout]:
    [std::cout << "Object is valid." << std::endl;] or
    [std::cout << "Object is invalid." << std::endl;] *)
Definition PrintValid (σ : objects) (this : nat) : option string :=
  b ← is_valid σ this;
  Some ((if b : bool then "Object is valid." else "Object is invalid.")
        +:+ endl).

(** The content of an object's vector. *)
Definition nicknames_of (σ : objects) (this : nat) : option (list string) :=
  nicknames_ <$> σ !! this.

End Person.

(** ** vectors.cpp: the printing helper and the two functions that take
       a vector by rvalue reference *)

Module Vectors.

(** The character written by ["\n"]. *)
Definition newline : string := String (Ascii.ascii_of_nat 10) "".

(** The loop shared by the three functions,
    [for (const int &elem : vec) { std::cout << elem << " "; }],
    as the text written.  [operator<<] writes an [int] in decimal, with a
    leading [-] when negative. *)
Fixpoint print_elems (vec : list Z) : string :=
  match vec with
  | [] => ""
  | elem :: rest => pretty elem +:+ " " +:+ print_elems rest
  end.

(** [void print_int_vector(const std::vector<int> &vec)]: the loop, then
    [std::cout << "\n";] *)
Definition print_int_vector (vec : list Z) : string :=
  print_elems vec +:+ newline.

(** [std::vector<int> get_vector() { return std::vector<int>{1,2,3,4}; }] *)
Definition get_vector : list Z := [1; 2; 3; 4].

(** [std::vector<int>] objects of the caller, by identity. *)
Abbreviation vectors := (gmap nat (list Z)).

(** [void move_add_three_and_print(std::vector<int> &&vec)]: the text written
    and the caller's vectors afterwards.  [vec1] is a local of the function.
    A vector that was moved from by construction is empty. *)
Definition move_add_three_and_print (vec : nat) (σ : vectors)
  : option (string * vectors) :=
  v ← σ !! vec;
  (* std::vector<int> vec1 = std::move(vec); *)
  let vec1 := v in
  let σ1 := <[vec := []]> σ in
  (* vec1.push_back(3); *)
  let vec1 := vec1 ++ [3] in
  (* for (const int &item : vec1) ...; std::cout << "\n"; *)
  Some (print_elems vec1 +:+ newline, σ1).

(** [void add_three_and_print(std::vector<int> &&vec)] *)
Definition add_three_and_print (vec : nat) (σ : vectors)
  : option (string * vectors) :=
  v ← σ !! vec;
  (* vec.push_back(3); *)
  let σ1 := <[vec := v ++ [3]]> σ in
  v' ← σ1 !! vec;
  (* for (const int &item : vec) ...; std::cout << "\n"; *)
  Some (print_elems v' +:+ newline, σ1).

(** [vec[i]] in the caller, unchecked: out of range is undefined. *)
Definition subscript (σ : vectors) (vec : nat) (i : nat) : option Z :=
  v ← σ !! vec; v !! i.

End Vectors.

(** ** Characters of the text written *)

Module Text.

Definition space : Ascii.ascii := Ascii.ascii_of_nat 32.

Definition line_feed : Ascii.ascii := Ascii.ascii_of_nat 10.

(** The two characters the printing loops write between and after the
    numbers. *)
Definition separator (c : Ascii.ascii) : bool :=
  bool_decide (c = space) || bool_decide (c = line_feed).

(** A text without separators. *)
Fixpoint is_token (s : string) : bool :=
  match s with
  | EmptyString => true
  | String c r => negb (separator c) && is_token r
  end.

End Text.

(** ** Representation of a list in the heap *)

Module Repr.
Import DLL.

(** [chain h p prev cells]: starting at [p], the heap holds the nodes
    [cells] (address and value, in traversal order), linked forward by
    [next_] up to [nullptr] and backward by [prev_] from [prev]. *)
Fixpoint chain (h : heap) (p prev : ptr) (cells : list (ptr * Z)) : Prop :=
  match cells with
  | [] => p = nullptr
  | (a, v) :: rest =>
      p = a ∧ a ≠ nullptr ∧
      ∃ nx, h !! a = Some {| next_ := nx; prev_ := prev; value_ := v |} ∧
            chain h nx a rest
  end.

(** The address of the [k]-th node, [nullptr] past the last one. *)
Definition ptr_at (cells : list (ptr * Z)) (k : nat) : ptr :=
  match cells !! k with
  | Some (a, _) => a
  | None => nullptr
  end.

(** The list [d] in heap [h] is made of [cells]; [h0] is the heap without
    the list's nodes. *)
Record dll_inv (h0 h : heap) (d : DLL) (cells : list (ptr * Z)) : Prop := {
  inv_chain : chain h (head_ d) nullptr cells;
  inv_nodup : NoDup cells.*1;
  inv_range : ∀ a, a ∈ cells.*1 → 0 < a < size_t_modulus;
  inv_owned : ∀ a, a ∈ cells.*1 → h0 !! a = None;
  inv_frame : ∀ a, a ∉ cells.*1 → h !! a = h0 !! a;
  inv_size : size_ d = Z.of_nat (length cells)
}.

(** A list obtained from [DLL()] by [InsertAtHead] calls only, which is
    all the class lets a caller do. *)
Definition built `{Allocator} (h0 : heap) (vals : list Z) (h : heap) (d : DLL)
  : Prop :=
  InsertAll vals (h0, DLL_new) = Some (h, d).

(** A concrete allocator for running the code: one past the highest
    address in use, while that fits a pointer. *)
Definition top (h : heap) : Z := foldr Z.max 0 (map_to_list h).*1.

Definition bump (h : heap) : option ptr :=
  let p := top h + 1 in
  if decide (p < size_t_modulus) then Some p else None.

Definition bump_allocator : Allocator := {| alloc := bump |}.

End Repr.

(** ** The data of the two [main] functions *)

Module Demo.

(** [main] of range_based_for.cpp inserts 6, 5, 4, 3, 2, 1.  With nodes
    handed out at addresses 1, 2, ... this is the heap it builds. *)
Definition dll_heap : DLL.heap :=
  list_to_map
    [(1, DLL.mkNode 0 2 6); (2, DLL.mkNode 1 3 5); (3, DLL.mkNode 2 4 4);
     (4, DLL.mkNode 3 5 3); (5, DLL.mkNode 4 6 2); (6, DLL.mkNode 5 0 1)].

Definition dll : DLL.DLL := DLL.mkDLL 6 6.

(** One iterator object, [iter = dll.begin()]. *)
Definition iter : nat := 0%nat.

Definition iters : DLL.iterators := {[ iter := DLL.begin dll ]}.

(** [main] of move_constructors.cpp: the objects [andy], [andy1] and
    [andy2]. *)
Definition andy : nat := 0%nat.
Definition andy1 : nat := 1%nat.
Definition andy2 : nat := 2%nat.

Definition andy_person : Person.Person :=
  Person.mkPerson 15445 ["andy"; "pavlo"]%string true.

(** The store after [Person andy(15445, {"andy", "pavlo"}); Person andy1;] *)
Definition two_objects : Person.objects :=
  <[andy1 := Person.mkPerson 0 [] true]> {[ andy := andy_person ]}.

End Demo.

(** * Properties *)

(** ** The bump allocator is an allocator *)

Lemma top_upper (h : DLL.heap) (p : Z) :
  is_Some (h !! p) → p ≤ Repr.top h.
Proof.
  intros [n Hn]. unfold Repr.top.
  assert (Hin : p ∈ (map_to_list h).*1).
  { apply list_elem_of_fmap. exists (p, n). split; [done|].
    by apply elem_of_map_to_list. }
  revert Hin. generalize ((map_to_list h).*1). intros l.
  induction l as [|x l IH]; intros Hin.
  - by apply elem_of_nil in Hin.
  - apply elem_of_cons in Hin as [->|Hin]; simpl; [lia|].
    specialize (IH Hin). lia.
Qed.

Lemma top_nonneg (h : DLL.heap) : 0 ≤ Repr.top h.
Proof.
  unfold Repr.top. generalize ((map_to_list h).*1). intros l.
  induction l as [|x l IH]; simpl; lia.
Qed.

Lemma bump_fresh (h : DLL.heap) (p : Z) :
  Repr.bump h = Some p → h !! p = None.
Proof.
  unfold Repr.bump. case_decide; [|done]. intros [= <-].
  destruct (h !! (Repr.top h + 1)) as [n|] eqn:E; [|done].
  assert (Repr.top h + 1 ≤ Repr.top h) by (apply top_upper; eauto). lia.
Qed.

Lemma bump_range (h : DLL.heap) (p : Z) :
  Repr.bump h = Some p → 0 < p < size_t_modulus.
Proof.
  unfold Repr.bump. case_decide; [|done]. intros [= <-].
  pose proof (top_nonneg h). lia.
Qed.

Lemma bump_laws : @DLL.AllocatorLaws Repr.bump_allocator.
Proof. split; [exact bump_fresh | exact bump_range]. Qed.

(** ** Chains *)

Section chains.
Import DLL Repr.
Implicit Types (h : heap) (p prev a : ptr) (cells : list (ptr * Z)).

Lemma chain_live h p prev cells a :
  chain h p prev cells → a ∈ cells.*1 → is_Some (h !! a) ∧ a ≠ nullptr.
Proof.
  revert p prev. induction cells as [|[b v] rest IH]; intros p prev Hc Hin.
  - by apply elem_of_nil in Hin.
  - destruct Hc as (-> & Hb & nx & Hl & Hrest).
    apply elem_of_cons in Hin as [->|Hin]; [eauto|].
    by eapply IH.
Qed.

(** A chain only depends on the heap at its own addresses. *)
Lemma chain_frame h h' p prev cells :
  chain h p prev cells →
  (∀ a, a ∈ cells.*1 → h' !! a = h !! a) →
  chain h' p prev cells.
Proof.
  revert p prev. induction cells as [|[b v] rest IH]; intros p prev Hc Hsame.
  - done.
  - destruct Hc as (-> & Hb & nx & Hl & Hrest).
    split; [done|]. split; [done|]. exists nx. split.
    + rewrite Hsame; [done|]. simpl. apply elem_of_cons. by left.
    + apply IH; [done|]. intros a Ha. apply Hsame. simpl.
      apply elem_of_cons. by right.
Qed.

Lemma chain_head h p prev cells :
  chain h p prev cells → p = ptr_at cells 0.
Proof. destruct cells as [|[b v] rest]; simpl; [done|]. by intros [-> _]. Qed.

Lemma chain_null h prev cells :
  chain h nullptr prev cells → cells = [].
Proof. destruct cells as [|[b v] rest]; [done|]. by intros (<- & ? & _). Qed.

(** Re-pointing the [prev_] of the first node. *)
Lemma chain_store_prev h p prev q cells :
  chain h p prev cells → NoDup cells.*1 → p ≠ nullptr →
  ∃ h', store_prev h p q = Some h' ∧ chain h' p q cells ∧
        (∀ a, a ≠ p → h' !! a = h !! a).
Proof.
  intros Hc Hnd Hp. destruct cells as [|[b v] rest]; [done|].
  destruct Hc as (-> & Hb & nx & Hl & Hrest).
  apply NoDup_cons in Hnd as [Hnotin Hnd].
  unfold store_prev, load. rewrite decide_False by done. rewrite Hl. simpl.
  eexists. split; [done|]. split.
  - split; [done|]. split; [done|]. exists nx. split.
    + by rewrite lookup_insert_eq.
    + eapply chain_frame; [done|]. intros a Ha.
      rewrite lookup_insert_ne; [done|]. intros <-. done.
  - intros a Ha. by rewrite lookup_insert_ne.
Qed.

(** No more distinct addresses than a pointer can tell apart. *)
Lemma addresses_bounded (l : list Z) :
  NoDup l → (∀ a, a ∈ l → 0 < a < size_t_modulus) →
  Z.of_nat (length l) < size_t_modulus.
Proof.
  intros Hnd Hr.
  assert (Hsub : l ⊆+ seqZ 1 (size_t_modulus - 1)).
  { apply NoDup_submseteq; [done|]. intros a Ha. apply elem_of_seqZ.
    specialize (Hr a Ha). lia. }
  apply submseteq_length in Hsub. rewrite length_seqZ in Hsub.
  unfold size_t_modulus in *. lia.
Qed.

End chains.

(** ** InsertAtHead keeps the representation *)

Section insertion.
Import DLL Repr.
Context `{Alloc : Allocator} `{Laws : !AllocatorLaws}.
Implicit Types (h : heap) (d : DLL) (cells : list (ptr * Z)).

Lemma dll_inv_new h0 : dll_inv h0 h0 DLL_new [].
Proof.
  split; simpl; try done.
  - constructor.
  - intros a Ha. by apply elem_of_nil in Ha.
  - intros a Ha. by apply elem_of_nil in Ha.
Qed.

Lemma dll_inv_length h0 h d cells :
  dll_inv h0 h d cells → Z.of_nat (length cells) < size_t_modulus.
Proof.
  intros [_ Hnd Hr _ _ _]. rewrite <- (length_fmap fst).
  by apply addresses_bounded.
Qed.

Lemma InsertAtHead_inv h0 h d cells v h' d' :
  dll_inv h0 h d cells →
  InsertAtHead v (h, d) = Some (h', d') →
  dll_inv h0 h' d' ((head_ d', v) :: cells).
Proof.
  intros Hinv Hins. pose proof Hinv as [Hc Hnd Hr Ho Hf Hs].
  unfold InsertAtHead in Hins.
  destruct (alloc h) as [new|] eqn:Ha; simpl in Hins; [|done].
  pose proof (alloc_fresh _ _ Ha) as Hfresh.
  pose proof (alloc_range _ _ Ha) as Hrange.
  assert (Hnew0 : new ≠ nullptr) by (unfold nullptr; lia).
  assert (Hnotin : new ∉ cells.*1).
  { intros Hin. destruct (chain_live _ _ _ _ _ Hc Hin) as [[n Hn] _].
    congruence. }
  unfold store_next, load in Hins. rewrite decide_False in Hins by done.
  rewrite lookup_insert_eq in Hins. simpl in Hins.
  rewrite insert_insert_eq in Hins.
  set (h2 := <[new := _]> h) in Hins.
  assert (Hc2 : chain h2 (head_ d) nullptr cells).
  { eapply chain_frame; [done|]. intros a Hin. unfold h2.
    rewrite lookup_insert_ne; [done|]. by intros <-. }
  assert (Hstep : ∃ h3, h' = h3 ∧ d' = {| head_ := new;
                     size_ := size_t_wrap (size_ d + 1) |} ∧
                   chain h3 (head_ d) new cells ∧
                   h3 !! new = Some {| next_ := head_ d; prev_ := nullptr;
                                       value_ := v |} ∧
                   (∀ a, a ≠ new → a ∉ cells.*1 → h3 !! a = h !! a)).
  { case_decide as Hhd.
    - destruct (chain_store_prev _ _ _ new _ Hc2 Hnd Hhd)
        as (h3 & Hst & Hc3 & Hoth).
      rewrite Hst in Hins. simpl in Hins. injection Hins as <- <-.
      exists h3. split; [done|]. split; [done|]. split; [done|].
      assert (Hin : head_ d ∈ cells.*1).
      { destruct cells as [|[b w] rest]; [done|].
        destruct Hc as (-> & _). simpl. apply elem_of_cons. by left. }
      split.
      + rewrite Hoth; [|by intros ->]. unfold h2.
        by rewrite lookup_insert_eq.
      + intros a Hne Hni. rewrite Hoth; [|by intros ->].
        unfold h2. by rewrite lookup_insert_ne.
    - simpl in Hins. injection Hins as <- <-.
      exists h2. split; [done|]. split; [done|].
      assert (Hnull : head_ d = nullptr) by (destruct (decide (head_ d = nullptr)); done).
      clear Hhd; rename Hnull into Hhd.
      split; [|split].
      + rewrite Hhd in Hc2. apply chain_null in Hc2 as ->. by rewrite Hhd.
      + unfold h2. by rewrite lookup_insert_eq.
      + intros a Hne _. unfold h2. by rewrite lookup_insert_ne. }
  destruct Hstep as (h3 & -> & -> & Hc3 & Hl3 & Hoth). simpl.
  assert (Hnd' : NoDup (new :: cells.*1)) by (by apply NoDup_cons).
  pose proof (λ a (Hin : a ∈ new :: cells.*1),
              match proj1 (elem_of_cons _ _ _) Hin with
              | or_introl e => eq_ind_r (λ a, 0 < a < size_t_modulus) Hrange e
              | or_intror i => Hr a i
              end) as Hr'.
  split; simpl.
  - split; [done|]. split; [done|]. by exists (head_ d).
  - done.
  - done.
  - intros a Hin. apply elem_of_cons in Hin as [->|Hin]; [|by apply Ho].
    rewrite <- Hf; done.
  - intros a Hni. apply not_elem_of_cons in Hni as [Hne Hni].
    rewrite Hoth by done. by apply Hf.
  - pose proof (addresses_bounded _ Hnd' Hr') as Hb. simpl in Hb.
    rewrite length_fmap in Hb. rewrite Hs. unfold size_t_wrap.
    rewrite Z.mod_small; lia.
Qed.

(** On a well-formed list [InsertAtHead] can only fail in [new]. *)
Lemma InsertAtHead_defined h0 h d cells v p :
  dll_inv h0 h d cells → alloc h = Some p →
  is_Some (InsertAtHead v (h, d)).
Proof.
  intros Hinv Ha. pose proof Hinv as [Hc Hnd Hr Ho Hf Hs].
  pose proof (alloc_fresh _ _ Ha) as Hfresh.
  pose proof (alloc_range _ _ Ha) as Hrange.
  assert (Hp0 : p ≠ nullptr) by (unfold nullptr; lia).
  unfold InsertAtHead. rewrite Ha. simpl.
  unfold store_next, load. rewrite decide_False by done.
  rewrite lookup_insert_eq. simpl. rewrite insert_insert_eq.
  case_decide as Hhd; [|done].
  assert (Hin : head_ d ∈ cells.*1).
  { destruct cells as [|[b w] rest]; [done|].
    destruct Hc as (-> & _). simpl. apply elem_of_cons. by left. }
  destruct (chain_live _ _ _ _ _ Hc Hin) as [[n Hn] _].
  assert (Hne : p ≠ head_ d) by congruence.
  unfold store_prev, load. rewrite decide_False by done.
  rewrite lookup_insert_ne by done. rewrite Hn. done.
Qed.

(** Cells of a list grown by [vals], newest first. *)
Lemma InsertAll_inv h0 vals : ∀ h d cells h' d',
  dll_inv h0 h d cells →
  InsertAll vals (h, d) = Some (h', d') →
  ∃ cells', dll_inv h0 h' d' cells' ∧
            cells'.*2 = rev vals ++ cells.*2 ∧
            length cells' = (length vals + length cells)%nat.
Proof.
  induction vals as [|v vals IH]; intros h d cells h' d' Hinv Hall.
  - simpl in Hall. injection Hall as <- <-. exists cells. by split.
  - change (InsertAtHead v (h, d) ≫= InsertAll vals = Some (h', d')) in Hall.
    destruct (InsertAtHead v (h, d)) as [[h1 d1]|] eqn:Hins; [|done].
    change (InsertAll vals (h1, d1) = Some (h', d')) in Hall.
    pose proof (InsertAtHead_inv _ _ _ _ _ _ _ Hinv Hins) as Hinv1.
    destruct (IH _ _ _ _ _ Hinv1 Hall) as (cells' & Hinv' & Hvals & Hlen).
    exists cells'. split; [done|]. split.
    + rewrite Hvals. simpl. by rewrite <- app_assoc.
    + rewrite Hlen. simpl. lia.
Qed.

Lemma built_inv h0 vals h d :
  built h0 vals h d →
  ∃ cells, dll_inv h0 h d cells ∧ cells.*2 = rev vals ∧
           length cells = length vals.
Proof.
  intros Hb.
  destruct (InsertAll_inv h0 vals _ _ _ _ _ (dll_inv_new h0) Hb)
    as (cells & Hinv & Hvals & Hlen).
  exists cells. split; [done|]. simpl in *.
  rewrite app_nil_r in Hvals. split; [done|]. lia.
Qed.

End insertion.

(** ** Walking a chain *)

Section walking.
Import DLL Repr.
Implicit Types (h : heap) (p prev : ptr) (cells : list (ptr * Z)).

Lemma ptr_at_cons c cells k : ptr_at (c :: cells) (S k) = ptr_at cells k.
Proof. done. Qed.

Lemma ptr_at_end cells k : (length cells ≤ k)%nat → ptr_at cells k = nullptr.
Proof. intros Hk. unfold ptr_at. by rewrite lookup_ge_None_2. Qed.

Lemma ptr_at_elem cells k :
  (k < length cells)%nat → ptr_at cells k ∈ cells.*1.
Proof.
  intros Hk. unfold ptr_at.
  destruct (lookup_lt_is_Some_2 cells k Hk) as [[a v] Hl]. rewrite Hl.
  apply list_elem_of_fmap. exists (a, v). split; [done|].
  by eapply list_elem_of_lookup_2.
Qed.

Lemma ptr_at_fst cells k :
  (k < length cells)%nat → cells.*1 !! k = Some (ptr_at cells k).
Proof.
  intros Hk. unfold ptr_at. rewrite list_lookup_fmap.
  destruct (lookup_lt_is_Some_2 cells k Hk) as [[a v] Hl]. by rewrite Hl.
Qed.

(** [k] steps along a chain of at least [k] nodes. *)
Lemma plus_loop_chain h cells : ∀ k p prev,
  chain h p prev cells → (k ≤ length cells)%nat →
  plus_loop h k {| curr_ := p |} = Some {| curr_ := ptr_at cells k |}.
Proof.
  induction cells as [|[a v] rest IH]; intros k p prev Hc Hk.
  - simpl in Hk. assert (k = O) as -> by lia. simpl in *. by rewrite Hc.
  - destruct Hc as (-> & Ha & nx & Hl & Hrest). destruct k as [|k].
    + done.
    + simpl. unfold incr_body, load. simpl. rewrite decide_False by done.
      rewrite Hl. simpl. rewrite ptr_at_cons. eapply IH; [done|].
      simpl in Hk. lia.
Qed.

(** One step too many reads through [nullptr]. *)
Lemma plus_loop_past h cells : ∀ k p prev,
  chain h p prev cells → (length cells < k)%nat →
  plus_loop h k {| curr_ := p |} = None.
Proof.
  induction cells as [|[a v] rest IH]; intros k p prev Hc Hk.
  - simpl in Hc. subst p. destruct k; [simpl in Hk; lia|]. done.
  - destruct Hc as (-> & Ha & nx & Hl & Hrest). destruct k as [|k].
    + simpl in Hk. lia.
    + simpl. unfold incr_body, load. simpl. rewrite decide_False by done.
      rewrite Hl. simpl. eapply IH; [done|]. simpl in Hk. lia.
Qed.

Lemma deref_chain h cells : ∀ k p prev,
  chain h p prev cells → (k < length cells)%nat →
  operator_deref h {| curr_ := ptr_at cells k |} = cells.*2 !! k.
Proof.
  induction cells as [|[a v] rest IH]; intros k p prev Hc Hk.
  - simpl in Hk. lia.
  - destruct Hc as (-> & Ha & nx & Hl & Hrest). destruct k as [|k].
    + unfold operator_deref, load, ptr_at. simpl.
      rewrite decide_False by done. by rewrite Hl.
    + rewrite ptr_at_cons.
      apply (IH k nx a Hrest). simpl in Hk. lia.
Qed.

(** The printing loop of [main] on a chain. *)
Lemma traverse_from_chain h d cells : ∀ fuel p prev,
  chain h p prev cells → (length cells < fuel)%nat →
  traverse_from fuel h d {| curr_ := p |} = Some cells.*2.
Proof.
  induction cells as [|[a v] rest IH]; intros fuel p prev Hc Hf.
  - simpl in Hc. subst p. destruct fuel; [simpl in Hf; lia|]. done.
  - destruct Hc as (-> & Ha & nx & Hl & Hrest).
    destruct fuel as [|fuel]; [simpl in Hf; lia|].
    simpl. unfold operator_ne. simpl.
    rewrite bool_decide_true by (intros E; by symmetry in E).
    unfold operator_deref, incr_body, load. simpl.
    rewrite decide_False by done. rewrite Hl. simpl.
    rewrite (IH fuel nx a Hrest); [done|]. simpl in Hf. lia.
Qed.

(** [++it] repeated is the loop of [operator+], whatever the heap. *)
Lemma incr_times_plus_loop h (σ : iterators) this : ∀ k it,
  σ !! this = Some it →
  incr_times h k this σ =
  (it' ← plus_loop h k it; Some (this, <[this := it']> σ)).
Proof.
  intros k. revert σ. induction k as [|k IH]; intros σ it Hit.
  - simpl. by rewrite insert_id.
  - simpl. unfold operator_incr, on_this. rewrite Hit. simpl.
    destruct (incr_body h it) as [it1|]; [|done]. simpl.
    rewrite (IH _ it1) by apply lookup_insert_eq.
    destruct (plus_loop h k it1) as [it2|]; [|done]. simpl.
    by rewrite insert_insert_eq.
Qed.

(** The destructor's loop on a chain: every node goes, each one once, in
    traversal order, and nothing else is touched. *)
Lemma dtor_loop_chain cells : ∀ fuel h p prev freed,
  chain h p prev cells → NoDup cells.*1 → (length cells ≤ fuel)%nat →
  ∃ h', dtor_loop fuel h p freed = Some (h', freed ++ cells.*1) ∧
        (∀ a, a ∈ cells.*1 → h' !! a = None) ∧
        (∀ a, a ∉ cells.*1 → h' !! a = h !! a).
Proof.
  induction cells as [|[a v] rest IH]; intros fuel h p prev freed Hc Hnd Hf.
  - simpl in Hc. subst p. exists h. split.
    + destruct fuel; simpl; by rewrite app_nil_r.
    + split; [|done]. intros a Ha. by apply elem_of_nil in Ha.
  - destruct Hc as (-> & Ha & nx & Hl & Hrest).
    apply NoDup_cons in Hnd as [Hni Hnd].
    destruct fuel as [|fuel]; [simpl in Hf; lia|].
    assert (Hc' : chain (delete a h) nx a rest).
    { eapply chain_frame; [done|]. intros b Hb.
      rewrite lookup_delete_ne; [done|]. by intros <-. }
    destruct (IH fuel (delete a h) nx a (freed ++ [a]) Hc' Hnd)
      as (h' & Hrun & Hgone & Hkept); [simpl in Hf; lia|].
    exists h'. split; [|split].
    + simpl. rewrite decide_True by done.
      unfold delete_node, load. rewrite decide_False by done.
      rewrite Hl. simpl. rewrite Hrun. by rewrite <- app_assoc.
    + intros b Hb. simpl in Hb. apply elem_of_cons in Hb as [->|Hb].
      * rewrite Hkept by done. apply lookup_delete_eq.
      * by apply Hgone.
    + intros b Hb. simpl in Hb. apply not_elem_of_cons in Hb as [Hne Hb].
      rewrite Hkept by done. by rewrite lookup_delete_ne.
Qed.

End walking.

(** ** The linked list: claims *)

Section dll_claims.
Import DLL Repr.
Context `{Alloc : Allocator} `{Laws : !AllocatorLaws}.

Lemma built_size h0 vals h d :
  built h0 vals h d →
  size_ d = Z.of_nat (length vals) ∧ size_ d < size_t_modulus.
Proof.
  intros Hb. destruct (built_inv _ _ _ _ Hb) as (cells & Hinv & Hvals & Hlen).
  pose proof (dll_inv_length _ _ _ _ Hinv) as Hbound.
  rewrite (inv_size _ _ _ _ Hinv). rewrite Hlen in *. lia.
Qed.

(** [it + offset] and [offset] rounds of [++it] are one and the same
    operation on the iterator object, on any heap. *)
Lemma operator_plus_incr_times h (σ : iterators) this it offset :
  σ !! this = Some it → 0 ≤ offset < size_t_modulus →
  operator_plus h this offset σ = incr_times h (Z.to_nat offset) this σ.
Proof.
  intros Hit Hoff. rewrite (incr_times_plus_loop _ _ _ _ it Hit).
  unfold operator_plus, on_this, plus_body, size_t_wrap. rewrite Hit. simpl.
  by rewrite Z.mod_small.
Qed.

(** C3: after [InsertAtHead] of the values [vals], one by one, into a
    fresh [DLL], [size_] is the number of values, and the loop
    [for (iter = begin(); iter != end(); ++iter)] reading [*iter] terminates
    and reads the values in reverse order of insertion.  A further
    [InsertAtHead] is defined whenever [new] returns storage. *)
Theorem insert_at_head_traversal (h0 : heap) (vals : list Z) (h : heap)
    (d : DLL) :
  built h0 vals h d →
  size_ d = Z.of_nat (length vals) ∧
  (∀ fuel, (length vals < fuel)%nat → traverse fuel h d = Some (rev vals)) ∧
  (∀ v, is_Some (alloc h) → is_Some (InsertAtHead v (h, d))).
Proof.
  intros Hb. split; [by eapply built_size|].
  destruct (built_inv _ _ _ _ Hb) as (cells & Hinv & Hvals & Hlen).
  split.
  - intros fuel Hfuel. unfold traverse, begin. rewrite <- Hvals.
    eapply traverse_from_chain; [apply (inv_chain _ _ _ _ Hinv)|]. lia.
  - intros v [p Hp]. by eapply InsertAtHead_defined.
Qed.

(** C4: on a list of [size_] nodes and for [k < size_], [begin() + k]
    and [k] rounds of [++] on [begin()] are both defined, leave the iterator
    object in the same state, and [*] then reads the same value, the
    [k]-th of the traversal.  [operator+] changes the object it is called on
    and returns a reference to that object. *)
Theorem advance_by_refines_advance_one (h0 : heap) (vals : list Z)
    (h : heap) (d : DLL) (k : Z) (σ : iterators) (this : nat) :
  built h0 vals h d → 0 ≤ k < size_ d → σ !! this = Some (begin d) →
  ∃ it' v,
    operator_plus h this k σ = Some (this, <[this := it']> σ) ∧
    incr_times h (Z.to_nat k) this σ = Some (this, <[this := it']> σ) ∧
    deref_at h this (<[this := it']> σ) = Some v ∧
    rev vals !! Z.to_nat k = Some v.
Proof.
  intros Hb Hk Hit.
  destruct (built_size _ _ _ _ Hb) as [Hsz Hlt].
  destruct (built_inv _ _ _ _ Hb) as (cells & Hinv & Hvals & Hlen).
  pose proof (inv_chain _ _ _ _ Hinv) as Hc.
  assert (Hkn : (Z.to_nat k < length cells)%nat) by lia.
  destruct (lookup_lt_is_Some_2 cells.*2 (Z.to_nat k)) as [v Hv];
    [by rewrite length_fmap|].
  exists {| curr_ := ptr_at cells (Z.to_nat k) |}, v.
  assert (Hrun : incr_times h (Z.to_nat k) this σ =
    Some (this, <[this := {| curr_ := ptr_at cells (Z.to_nat k) |}]> σ)).
  { rewrite (incr_times_plus_loop _ _ _ _ _ Hit). unfold begin.
    rewrite (plus_loop_chain _ _ _ _ _ Hc); [done|lia]. }
  split; [|split; [done|split]].
  - rewrite (operator_plus_incr_times _ _ _ _ _ Hit); [done|lia].
  - unfold deref_at. rewrite lookup_insert_eq. simpl.
    by rewrite (deref_chain _ _ _ _ _ Hc Hkn).
  - by rewrite <- Hvals.
Qed.

(** C5: on every list, [size_] rounds of [++] take [begin()] to [end()]
    and no fewer do; [begin() != end()] is false exactly when the list is
    empty; [!=] compares the nodes referred to: iterators at two different
    positions of the list are unequal whatever values are stored there. *)
Theorem end_reached_after_size (h0 : heap) (vals : list Z) (h : heap)
    (d : DLL) (σ : iterators) (this : nat) :
  built h0 vals h d → σ !! this = Some (begin d) →
  incr_times h (Z.to_nat (size_ d)) this σ
    = Some (this, <[this := end_ d]> σ) ∧
  (∀ j, (j < Z.to_nat (size_ d))%nat →
     ∃ it, incr_times h j this σ = Some (this, <[this := it]> σ) ∧
           operator_ne it (end_ d) = true) ∧
  (operator_ne (begin d) (end_ d) = false ↔ size_ d = 0) ∧
  (size_ d = 0 ↔ vals = []) ∧
  (∀ a b : DLLIterator, operator_ne a b = false ↔ curr_ a = curr_ b) ∧
  (∀ i j it_i it_j, (i < j < Z.to_nat (size_ d))%nat →
     plus_loop h i (begin d) = Some it_i →
     plus_loop h j (begin d) = Some it_j →
     operator_ne it_i it_j = true).
Proof.
  intros Hb Hit.
  destruct (built_size _ _ _ _ Hb) as [Hsz Hlt].
  destruct (built_inv _ _ _ _ Hb) as (cells & Hinv & Hvals & Hlen).
  pose proof (inv_chain _ _ _ _ Hinv) as Hc.
  pose proof (inv_nodup _ _ _ _ Hinv) as Hnd.
  assert (Hn : Z.to_nat (size_ d) = length cells) by lia.
  rewrite Hn.
  assert (Hlive : ∀ j, (j < length cells)%nat → ptr_at cells j ≠ nullptr).
  { intros j Hj. eapply chain_live; [done|]. by apply ptr_at_elem. }
  split; [|split; [|split; [|split; [|split]]]].
  - rewrite (incr_times_plus_loop _ _ _ _ _ Hit). unfold begin.
    rewrite (plus_loop_chain _ _ _ _ _ Hc) by lia. simpl.
    by rewrite ptr_at_end.
  - intros j Hj. exists {| curr_ := ptr_at cells j |}. split.
    + rewrite (incr_times_plus_loop _ _ _ _ _ Hit). unfold begin.
      by rewrite (plus_loop_chain _ _ _ _ _ Hc) by lia.
    + unfold operator_ne. simpl. apply bool_decide_eq_true.
      intros E. by eapply Hlive.
  - unfold operator_ne. simpl. rewrite bool_decide_eq_false. split.
    + intros Hhd. assert (Hnull : head_ d = nullptr).
      { destruct (decide (head_ d = nullptr)); [done|]. exfalso. apply Hhd.
        by intros E. }
      rewrite Hnull in Hc. apply chain_null in Hc. subst cells. simpl in *.
      lia.
    + intros Hz Hne. destruct cells; [|simpl in *; lia]. simpl in Hc.
      by rewrite Hc in Hne.
  - rewrite Hsz. split.
    + intros Hz. destruct vals; [done|simpl in *; lia].
    + by intros ->.
  - intros a b. unfold operator_ne. rewrite bool_decide_eq_false. split.
    + intros Hnn. destruct (decide (curr_ a = curr_ b)); [done|].
      exfalso. apply Hnn. by intros E.
    + intros -> Hne. done.
  - intros i j it_i it_j [Hij Hj] Hi Hjj. unfold begin in *.
    rewrite (plus_loop_chain _ _ _ _ _ Hc) in Hi by lia.
    rewrite (plus_loop_chain _ _ _ _ _ Hc) in Hjj by lia.
    injection Hi as <-. injection Hjj as <-.
    unfold operator_ne. simpl. apply bool_decide_eq_true. intros E.
    assert (i = j); [|lia].
    eapply (NoDup_lookup cells.*1); [done| |].
    + apply ptr_at_fst. lia.
    + rewrite <- E. apply ptr_at_fst. lia.
Qed.

(** C6: the destructor of a list terminates without reading or releasing
    a dead node; it hands to [delete] the nodes of the chain in traversal
    order, each one once (as many as were allocated); the link to the next
    node is read while the node is still live; afterwards none of them is
    left in the heap, which is back to what it was before the list was
    built, and [head_] is [nullptr]. *)
Theorem destructor_releases_each_node_once (h0 : heap) (vals : list Z)
    (h : heap) (d : DLL) (fuel : nat) :
  built h0 vals h d → (length vals ≤ fuel)%nat →
  ∃ d' freed,
    dtor fuel (h, d) = Some (h0, d', freed) ∧
    head_ d' = nullptr ∧
    NoDup freed ∧
    length freed = length vals ∧
    (∀ k, (k < length vals)%nat →
       ∃ it, plus_loop h k (begin d) = Some it ∧
             freed !! k = Some (curr_ it)) ∧
    (∀ a, a ∈ freed → is_Some (load h a) ∧ load h0 a = None).
Proof.
  intros Hb Hfuel.
  destruct (built_inv _ _ _ _ Hb) as (cells & Hinv & Hvals & Hlen).
  pose proof (inv_chain _ _ _ _ Hinv) as Hc.
  pose proof (inv_nodup _ _ _ _ Hinv) as Hnd.
  destruct (dtor_loop_chain cells fuel h (head_ d) nullptr [] Hc Hnd)
    as (h' & Hrun & Hgone & Hkept); [lia|].
  assert (Hh' : h' = h0).
  { apply map_eq. intros a. destruct (decide (a ∈ cells.*1)) as [Hin|Hni].
    - rewrite Hgone by done. symmetry. by apply (inv_owned _ _ _ _ Hinv).
    - rewrite Hkept by done. by apply (inv_frame _ _ _ _ Hinv). }
  subst h'. simpl in Hrun.
  exists {| head_ := nullptr; size_ := size_ d |}, cells.*1.
  split; [|split; [done|split; [done|split; [|split]]]].
  - unfold dtor. by rewrite Hrun.
  - by rewrite length_fmap.
  - intros k Hk. exists {| curr_ := ptr_at cells k |}. split.
    + unfold begin. apply (plus_loop_chain _ _ _ _ _ Hc). lia.
    + simpl. apply ptr_at_fst. lia.
  - intros a Ha. destruct (chain_live _ _ _ _ _ Hc Ha) as [Hlive Hnn].
    unfold load. rewrite !decide_False by done. split; [done|].
    by apply (inv_owned _ _ _ _ Hinv).
Qed.

End dll_claims.

(** C8: [it + 0] runs no round of the loop: the iterator object keeps
    its position, whatever it is (also [end()] or a stale pointer), the
    store of iterators is unchanged and the reference returned is the
    object itself. *)
Theorem advance_by_zero_identity (h : DLL.heap) (σ : DLL.iterators)
    (this : nat) (it : DLL.DLLIterator) :
  σ !! this = Some it →
  DLL.plus_body h 0 it = Some it ∧
  DLL.operator_plus h this 0 σ = Some (this, σ).
Proof.
  intros Hit. split; [done|].
  unfold DLL.operator_plus, DLL.on_this. rewrite Hit. simpl.
  by rewrite insert_id.
Qed.

(** ** Person: what the two move operations do to the store *)

Section person_moves.
Import Person.
Context `{VectorMove}.
Implicit Types (σ : objects) (this other person x : nat) (t o p : Person).

Lemma write_age_Some σ x p a :
  σ !! x = Some p →
  write_age σ x a =
  Some (<[x := {| age_ := a; nicknames_ := nicknames_ p;
                  valid_ := valid_ p |}]> σ).
Proof. intros Hp. unfold write_age. by rewrite Hp. Qed.

Lemma write_nicknames_Some σ x p ns :
  σ !! x = Some p →
  write_nicknames σ x ns =
  Some (<[x := {| age_ := age_ p; nicknames_ := ns; valid_ := valid_ p |}]> σ).
Proof. intros Hp. unfold write_nicknames. by rewrite Hp. Qed.

Lemma write_valid_Some σ x p b :
  σ !! x = Some p →
  write_valid σ x b =
  Some (<[x := {| age_ := age_ p; nicknames_ := nicknames_ p;
                  valid_ := b |}]> σ).
Proof. intros Hp. unfold write_valid. by rewrite Hp. Qed.

(** Move assignment between two objects. *)
Lemma operator_assign_distinct σ this other t o :
  σ !! this = Some t → σ !! other = Some o → this ≠ other →
  operator_assign this other σ =
  Some (this,
        <[other := {| age_ := age_ o;
                      nicknames_ := assigned_from (nicknames_ o);
                      valid_ := false |}]>
          (<[this := {| age_ := age_ o; nicknames_ := nicknames_ o;
                        valid_ := true |}]> σ)).
Proof.
  intros Ht Ho Hne. unfold operator_assign. rewrite Ho. simpl.
  rewrite (write_age_Some _ _ _ _ Ht). simpl.
  set (σ1 := <[this := _]> σ).
  assert (Ht1 : σ1 !! this = Some {| age_ := age_ o;
            nicknames_ := nicknames_ t; valid_ := valid_ t |})
    by apply lookup_insert_eq.
  assert (Ho1 : σ1 !! other = Some o)
    by (unfold σ1; by rewrite lookup_insert_ne).
  unfold vector_move_assign. rewrite Ht1, Ho1. simpl.
  rewrite decide_False by done.
  rewrite (write_nicknames_Some _ _ _ _ Ht1). simpl.
  set (σ2 := <[this := _]> σ1).
  assert (Ho2 : σ2 !! other = Some o)
    by (unfold σ2; by rewrite lookup_insert_ne).
  rewrite (write_nicknames_Some _ _ _ _ Ho2). simpl.
  set (σ3 := <[other := _]> σ2).
  assert (Ht3 : σ3 !! this = Some {| age_ := age_ o;
            nicknames_ := nicknames_ o; valid_ := valid_ t |}).
  { unfold σ3. rewrite lookup_insert_ne by done. apply lookup_insert_eq. }
  rewrite (write_valid_Some _ _ _ _ Ht3). simpl.
  set (σ4 := <[this := _]> σ3).
  assert (Ho4 : σ4 !! other = Some {| age_ := age_ o;
            nicknames_ := assigned_from (nicknames_ o); valid_ := valid_ o |}).
  { unfold σ4. rewrite lookup_insert_ne by done. apply lookup_insert_eq. }
  rewrite (write_valid_Some _ _ _ _ Ho4). simpl.
  f_equal. f_equal. apply map_eq. intros i.
  unfold σ4, σ3, σ2, σ1. rewrite !lookup_insert.
  repeat case_decide; congruence.
Qed.

(** Move assignment of an object to itself: the three writes to [this] are
    followed by [other.valid_ = false] on the same object. *)
Lemma operator_assign_self σ this t :
  σ !! this = Some t →
  operator_assign this this σ =
  Some (this,
        <[this := {| age_ := age_ t;
                     nicknames_ := self_assigned (nicknames_ t);
                     valid_ := false |}]> σ).
Proof.
  intros Ht. unfold operator_assign. rewrite Ht. simpl.
  rewrite (write_age_Some _ _ _ _ Ht). simpl.
  set (σ1 := <[this := _]> σ).
  assert (Ht1 : σ1 !! this = Some {| age_ := age_ t;
            nicknames_ := nicknames_ t; valid_ := valid_ t |})
    by apply lookup_insert_eq.
  unfold vector_move_assign. rewrite Ht1. simpl.
  rewrite decide_True by done.
  rewrite (write_nicknames_Some _ _ _ _ Ht1). simpl.
  set (σ2 := <[this := _]> σ1).
  assert (Ht2 : σ2 !! this = Some {| age_ := age_ t;
            nicknames_ := self_assigned (nicknames_ t); valid_ := valid_ t |})
    by apply lookup_insert_eq.
  rewrite (write_valid_Some _ _ _ _ Ht2). simpl.
  set (σ3 := <[this := _]> σ2).
  assert (Ht3 : σ3 !! this = Some {| age_ := age_ t;
            nicknames_ := self_assigned (nicknames_ t); valid_ := true |})
    by apply lookup_insert_eq.
  rewrite (write_valid_Some _ _ _ _ Ht3). simpl.
  unfold σ3, σ2, σ1. by rewrite !insert_insert_eq.
Qed.

(** Move construction of a new object. *)
Lemma Person_move_fresh σ this person o :
  σ !! person = Some o → σ !! this = None →
  Person_move this person σ =
  Some (<[person := {| age_ := age_ o; nicknames_ := [];
                       valid_ := false |}]>
          (<[this := {| age_ := age_ o; nicknames_ := nicknames_ o;
                        valid_ := true |}]> σ)).
Proof.
  intros Ho Ht. assert (Hne : this ≠ person) by congruence.
  unfold Person_move, emplace. rewrite Ho. simpl. rewrite Ht. simpl.
  set (σ1 := <[this := _]> σ).
  assert (Ho1 : σ1 !! person = Some o)
    by (unfold σ1; by rewrite lookup_insert_ne).
  rewrite (write_nicknames_Some _ _ _ _ Ho1). simpl.
  set (σ2 := <[person := _]> σ1).
  assert (Ho2 : σ2 !! person = Some {| age_ := age_ o; nicknames_ := [];
            valid_ := valid_ o |}) by apply lookup_insert_eq.
  rewrite (write_valid_Some _ _ _ _ Ho2). simpl.
  unfold σ2. by rewrite insert_insert_eq.
Qed.

Lemma is_valid_insert σ this p :
  is_valid (<[this := p]> σ) this = Some (valid_ p).
Proof. unfold is_valid. by rewrite lookup_insert_eq. Qed.

Lemma is_valid_insert_ne σ this other p :
  other ≠ this → is_valid (<[other := p]> σ) this = is_valid σ this.
Proof. intros Hne. unfold is_valid. by rewrite lookup_insert_ne. Qed.

Lemma GetAge_insert σ this p :
  GetAge (<[this := p]> σ) this = Some (age_ p).
Proof. unfold GetAge. by rewrite lookup_insert_eq. Qed.

Lemma GetAge_insert_ne σ this other p :
  other ≠ this → GetAge (<[other := p]> σ) this = GetAge σ this.
Proof. intros Hne. unfold GetAge. by rewrite lookup_insert_ne. Qed.

End person_moves.

(** ** Person: claims *)

Section person_claims.
Import Person.
Context `{VectorMove}.
Implicit Types (σ : objects) (this other fresh : nat) (t o : Person).

(** C1, as the code has it: [p = std::move(p)] keeps [age_], but the
    last statement, [other.valid_ = false], hits [p] itself, so [p] ends up
    marked invalid; [nicknames_] holds what the library's vector leaves after
    a move assignment to itself; no other object changes. *)
Theorem self_transfer_marks_invalid σ this t :
  σ !! this = Some t →
  ∃ σ', operator_assign this this σ = Some (this, σ') ∧
        is_valid σ' this = Some false ∧
        GetAge σ' this = Some (age_ t) ∧
        nicknames_of σ' this = Some (self_assigned (nicknames_ t)) ∧
        ∀ x, x ≠ this → σ' !! x = σ !! x.
Proof.
  intros Ht. eexists. split; [by apply operator_assign_self|].
  split; [by rewrite is_valid_insert|].
  split; [by rewrite GetAge_insert|]. split.
  - unfold nicknames_of. by rewrite lookup_insert_eq.
  - intros x Hx. by rewrite lookup_insert_ne.
Qed.

(** C2: an object is valid right after [Person()] and after
    [Person(age, nicknames)], in any store; after
    [Person target(std::move(source))], for any source, the target is valid
    and the source is not; and so it is after [target = std::move(source)]
    on two objects. *)
Theorem validity_after_construction_and_transfer :
  (∀ σ fresh,
     σ !! fresh = None →
     ∃ σ', Person_default fresh σ = Some σ' ∧
           is_valid σ' fresh = Some true) ∧
  (∀ σ fresh (age : Z) (nicknames : list string),
     σ !! fresh = None →
     ∃ σ', Person_direct fresh age nicknames σ = Some σ' ∧
           is_valid σ' fresh = Some true) ∧
  (∀ σ fresh other o,
     σ !! other = Some o → σ !! fresh = None →
     ∃ σ', Person_move fresh other σ = Some σ' ∧
           is_valid σ' fresh = Some true ∧
           is_valid σ' other = Some false) ∧
  (∀ σ this other t o,
     σ !! this = Some t → σ !! other = Some o → this ≠ other →
     ∃ σ', operator_assign this other σ = Some (this, σ') ∧
           is_valid σ' this = Some true ∧
           is_valid σ' other = Some false).
Proof.
  split; [|split; [|split]].
  - intros σ fresh Hfresh. unfold Person_default, emplace. rewrite Hfresh.
    eexists. split; [done|]. by rewrite is_valid_insert.
  - intros σ fresh age nicknames Hfresh.
    unfold Person_direct, emplace. rewrite Hfresh.
    eexists. split; [done|]. by rewrite is_valid_insert.
  - intros σ fresh other o Ho Hfresh.
    assert (Hfo : fresh ≠ other) by congruence.
    eexists. split; [by apply Person_move_fresh|]. split.
    + rewrite is_valid_insert_ne by done. by rewrite is_valid_insert.
    + by rewrite is_valid_insert.
  - intros σ this other t o Ht Ho Hne.
    eexists. split; [by eapply operator_assign_distinct|]. split.
    + rewrite is_valid_insert_ne by done. by rewrite is_valid_insert.
    + by rewrite is_valid_insert.
Qed.

(** C9: [age_] is copied.  After [Person target(std::move(source))],
    for any source, and after [target = std::move(source)] on two objects,
    the source still reports the age it had, and the target reports it
    too. *)
Theorem source_age_kept :
  (∀ σ fresh other o,
     σ !! other = Some o → σ !! fresh = None →
     ∃ σ', Person_move fresh other σ = Some σ' ∧
           GetAge σ' other = Some (age_ o) ∧
           GetAge σ' fresh = Some (age_ o)) ∧
  (∀ σ this other t o,
     σ !! this = Some t → σ !! other = Some o → this ≠ other →
     ∃ σ', operator_assign this other σ = Some (this, σ') ∧
           GetAge σ' other = Some (age_ o) ∧
           GetAge σ' this = Some (age_ o)).
Proof.
  split.
  - intros σ fresh other o Ho Hfresh.
    assert (Hfo : fresh ≠ other) by congruence.
    eexists. split; [by apply Person_move_fresh|]. split.
    + by rewrite GetAge_insert.
    + rewrite GetAge_insert_ne by done. by rewrite GetAge_insert.
  - intros σ this other t o Ht Ho Hne.
    eexists. split; [by eapply operator_assign_distinct|]. split.
    + by rewrite GetAge_insert.
    + rewrite GetAge_insert_ne by done. by rewrite GetAge_insert.
Qed.

(** C10: neither move reads the source's [valid_]: whatever the flag [b]
    of the source is, also [false], the move is carried out and leaves the
    source invalid and the target, an object other than the source, valid;
    the resulting store is the same as for a source with any other flag
    [b'].  ([this] and [other] may name one object here: the flag written
    last, [false], is then the one that stays.) *)
Theorem transfer_ignores_source_validity σ this other fresh t
    (age : Z) (nicknames : list string) (b b' : bool) :
  σ !! this = Some t → fresh ≠ other → σ !! fresh = None →
  (∃ σ', Person_move fresh other (<[other := mkPerson age nicknames b]> σ)
           = Some σ' ∧
         is_valid σ' fresh = Some true ∧ is_valid σ' other = Some false ∧
         Person_move fresh other (<[other := mkPerson age nicknames b']> σ)
           = Some σ') ∧
  (∃ σ', operator_assign this other (<[other := mkPerson age nicknames b]> σ)
           = Some (this, σ') ∧
         is_valid σ' other = Some false ∧
         (this ≠ other → is_valid σ' this = Some true) ∧
         operator_assign this other (<[other := mkPerson age nicknames b']> σ)
           = Some (this, σ')).
Proof.
  intros Ht Hfo Hfresh. set (source := mkPerson age nicknames).
  assert (Hsrc : ∀ f, <[other := source f]> σ !! other = Some (source f))
    by (intros f; apply lookup_insert_eq).
  assert (Hfr : ∀ f, <[other := source f]> σ !! fresh = None)
    by (intros f; by rewrite lookup_insert_ne).
  split.
  - eexists. split; [by apply Person_move_fresh|]. split; [|split].
    + rewrite is_valid_insert_ne by done. by rewrite is_valid_insert.
    + by rewrite is_valid_insert.
    + rewrite (Person_move_fresh _ _ _ _ (Hsrc b') (Hfr b')). f_equal.
      simpl. apply map_eq. intros i. rewrite !lookup_insert.
      repeat case_decide; congruence.
  - destruct (decide (this = other)) as [<-|Hne].
    + eexists. split; [by eapply operator_assign_self|].
      split; [by rewrite is_valid_insert|]. split; [done|].
      rewrite (operator_assign_self _ _ _ (Hsrc b')). simpl.
      by rewrite !insert_insert_eq.
    + assert (Hthis : ∀ f, <[other := source f]> σ !! this = Some t)
        by (intros f; by rewrite lookup_insert_ne).
      eexists. split; [by eapply operator_assign_distinct|].
      split; [by rewrite is_valid_insert|]. split.
      * intros _. rewrite is_valid_insert_ne by done.
        by rewrite is_valid_insert.
      * rewrite (operator_assign_distinct _ _ _ _ _ (Hthis b') (Hsrc b') Hne).
        f_equal. f_equal. simpl. apply map_eq. intros i.
        rewrite !lookup_insert. repeat case_decide; congruence.
Qed.

End person_claims.

(** ** The claims at the data of the two [main] functions *)

Section runs.
Import DLL Repr Person Demo.

Lemma demo_built : @built bump_allocator ∅ [6; 5; 4; 3; 2; 1] dll_heap dll.
Proof. vm_compute. reflexivity. Qed.

(** The loop of [main] prints 1 2 3 4 5 6. *)
Example main_traversal : traverse 7 dll_heap dll = Some [1; 2; 3; 4; 5; 6].
Proof. vm_compute. reflexivity. Qed.

(** [iter = iter + 2; *iter] is the third element. *)
Example main_third_element :
  ∃ σ', operator_plus dll_heap iter 2 iters = Some (iter, σ') ∧
        deref_at dll_heap iter σ' = Some 3.
Proof. eexists. split; vm_compute; reflexivity. Qed.

(** Two nodes that store the same value are still two positions. *)
Example ne_is_by_node :
  ∃ h d it0 it1,
    @built bump_allocator ∅ [7; 7] h d ∧
    plus_loop h 0 (begin d) = Some it0 ∧ plus_loop h 1 (begin d) = Some it1 ∧
    operator_deref h it0 = Some 7 ∧ operator_deref h it1 = Some 7 ∧
    operator_ne it0 it1 = true.
Proof.
  exists (list_to_map [(1, mkNode 0 2 7); (2, mkNode 1 0 7)]), (mkDLL 2 2),
    (mkIter 2), (mkIter 1).
  repeat split; vm_compute; reflexivity.
Qed.

(** [andy1 = std::move(andy); Person andy2(std::move(andy1));] *)
Example main_moves :
  ∃ σ1 σ2,
    @operator_assign stolen_buffer andy1 andy two_objects
      = Some (andy1, σ1) ∧
    PrintValid σ1 andy1 = Some ("Object is valid." +:+ endl) ∧
    PrintValid σ1 andy = Some ("Object is invalid." +:+ endl) ∧
    GetNicknameAtI σ1 andy1 0 = Some "andy"%string ∧
    Person_move andy2 andy1 σ1 = Some σ2 ∧
    PrintValid σ2 andy2 = Some ("Object is valid." +:+ endl) ∧
    PrintValid σ2 andy1 = Some ("Object is invalid." +:+ endl) ∧
    GetNicknameAtI σ2 andy2 1 = Some "pavlo"%string.
Proof.
  eexists. eexists. split; [vm_compute; reflexivity|].
  repeat split; vm_compute; reflexivity.
Qed.

End runs.

(** ** Instances of the claims *)

Section instances.
Import DLL Repr Person Demo.

(** C1 as the specification words it fails: after
    [andy = std::move(andy)] the object is not valid.  (With the vector of
    libstdc++ and libc++ its nicknames are gone too; the validity flag does
    not depend on the library.) *)
Lemma self_transfer_not_valid :
  ¬ ∃ σ',
      @operator_assign stolen_buffer andy andy {[ andy := andy_person ]}
        = Some (andy, σ') ∧
      is_valid σ' andy = Some true ∧
      GetAge σ' andy = Some 15445 ∧
      nicknames_of σ' andy = Some ["andy"; "pavlo"]%string.
Proof.
  intros (σ' & Hrun & Hvalid & _).
  rewrite (@operator_assign_self stolen_buffer _ _ andy_person) in Hrun
    by apply lookup_singleton_eq.
  injection Hrun as <-. rewrite is_valid_insert in Hvalid. discriminate.
Qed.

Lemma self_transfer_marks_invalid_witness :
  ({[ andy := andy_person ]} : objects) !! andy = Some andy_person ∧
  ∃ σ',
    @operator_assign stolen_buffer andy andy {[ andy := andy_person ]}
      = Some (andy, σ') ∧
    is_valid σ' andy = Some false ∧
    GetAge σ' andy = Some 15445 ∧
    nicknames_of σ' andy = Some [] ∧
    ∀ x, x ≠ andy → σ' !! x = ({[ andy := andy_person ]} : objects) !! x.
Proof.
  assert (Hl : ({[ andy := andy_person ]} : objects) !! andy
               = Some andy_person) by reflexivity.
  split; [exact Hl|].
  exact (@self_transfer_marks_invalid stolen_buffer _ andy andy_person Hl).
Defined.

(** The objects of [main]: [andy] is constructed in a store that holds
    nothing yet, [andy1] beside it, [andy1 = std::move(andy)] runs on the
    two, and a move construction takes the only object there is. *)
Lemma validity_after_construction_and_transfer_witness :
  (∅ : objects) !! andy = None ∧
  (∃ σ', Person_direct andy 15445 ["andy"; "pavlo"] ∅ = Some σ' ∧
         is_valid σ' andy = Some true) ∧
  ({[ andy := andy_person ]} : objects) !! andy1 = None ∧
  (∃ σ', Person_default andy1 {[ andy := andy_person ]} = Some σ' ∧
         is_valid σ' andy1 = Some true) ∧
  ({[ andy := andy_person ]} : objects) !! andy = Some andy_person ∧
  (∃ σ', Person_move andy1 andy {[ andy := andy_person ]} = Some σ' ∧
         is_valid σ' andy1 = Some true ∧ is_valid σ' andy = Some false) ∧
  two_objects !! andy1 = Some (mkPerson 0 [] true) ∧
  two_objects !! andy = Some andy_person ∧
  andy1 ≠ andy ∧
  (∃ σ', @operator_assign stolen_buffer andy1 andy two_objects
           = Some (andy1, σ') ∧
         is_valid σ' andy1 = Some true ∧ is_valid σ' andy = Some false).
Proof.
  assert (H0 : (∅ : objects) !! andy = None) by reflexivity.
  assert (H1 : ({[ andy := andy_person ]} : objects) !! andy1 = None)
    by reflexivity.
  assert (H2 : ({[ andy := andy_person ]} : objects) !! andy
               = Some andy_person) by reflexivity.
  assert (H3 : two_objects !! andy1 = Some (mkPerson 0 [] true))
    by reflexivity.
  assert (H4 : two_objects !! andy = Some andy_person) by reflexivity.
  assert (H5 : andy1 ≠ andy) by (unfold andy1, andy; lia).
  destruct (@validity_after_construction_and_transfer stolen_buffer)
    as (Hdefault & Hdirect & Hmove & Hassign).
  split; [exact H0|].
  split; [exact (Hdirect ∅ andy 15445 ["andy"; "pavlo"] H0)|].
  split; [exact H1|].
  split; [exact (Hdefault _ andy1 H1)|].
  split; [exact H2|].
  split; [exact (Hmove _ andy1 andy _ H2 H1)|].
  split; [exact H3|]. split; [exact H4|]. split; [exact H5|].
  exact (Hassign _ andy1 andy _ _ H3 H4 H5).
Defined.

(** Moving from the only object of the store, and between the two objects
    of [main]. *)
Lemma source_age_kept_witness :
  ({[ andy := andy_person ]} : objects) !! andy = Some andy_person ∧
  ({[ andy := andy_person ]} : objects) !! andy1 = None ∧
  (∃ σ', Person_move andy1 andy {[ andy := andy_person ]} = Some σ' ∧
         GetAge σ' andy = Some 15445 ∧ GetAge σ' andy1 = Some 15445) ∧
  two_objects !! andy1 = Some (mkPerson 0 [] true) ∧
  two_objects !! andy = Some andy_person ∧
  andy1 ≠ andy ∧
  (∃ σ', @operator_assign stolen_buffer andy1 andy two_objects
           = Some (andy1, σ') ∧
         GetAge σ' andy = Some 15445 ∧ GetAge σ' andy1 = Some 15445).
Proof.
  assert (H1 : ({[ andy := andy_person ]} : objects) !! andy
               = Some andy_person) by reflexivity.
  assert (H2 : ({[ andy := andy_person ]} : objects) !! andy1 = None)
    by reflexivity.
  assert (H3 : two_objects !! andy1 = Some (mkPerson 0 [] true))
    by reflexivity.
  assert (H4 : two_objects !! andy = Some andy_person) by reflexivity.
  assert (H5 : andy1 ≠ andy) by (unfold andy1, andy; lia).
  destruct (@source_age_kept stolen_buffer) as (Hmove & Hassign).
  split; [exact H1|]. split; [exact H2|].
  split; [exact (Hmove _ andy1 andy _ H1 H2)|].
  split; [exact H3|]. split; [exact H4|]. split; [exact H5|].
  exact (Hassign _ andy1 andy _ _ H3 H4 H5).
Defined.

(** A source that was already moved from ([valid_] false) is moved from
    again. *)
Lemma transfer_ignores_source_validity_witness :
  two_objects !! andy1 = Some (mkPerson 0 [] true) ∧
  andy2 ≠ andy ∧
  two_objects !! andy2 = None ∧
  (∃ σ', @operator_assign stolen_buffer andy1 andy
           (<[andy := mkPerson 15445 [] false]> two_objects)
           = Some (andy1, σ') ∧
         is_valid σ' andy = Some false ∧
         (andy1 ≠ andy → is_valid σ' andy1 = Some true) ∧
         @operator_assign stolen_buffer andy1 andy
           (<[andy := mkPerson 15445 [] true]> two_objects)
           = Some (andy1, σ')).
Proof.
  assert (H1 : two_objects !! andy1 = Some (mkPerson 0 [] true))
    by reflexivity.
  assert (H3 : andy2 ≠ andy) by (unfold andy2, andy; lia).
  assert (H4 : two_objects !! andy2 = None) by reflexivity.
  split; [exact H1|]. split; [exact H3|]. split; [exact H4|].
  exact (proj2 (@transfer_ignores_source_validity stolen_buffer two_objects
                  andy1 andy andy2 _ 15445 [] false true H1 H3 H4)).
Defined.

Lemma insert_at_head_traversal_witness :
  @built bump_allocator ∅ [6; 5; 4; 3; 2; 1] dll_heap dll ∧
  size_ dll = 6 ∧
  traverse 7 dll_heap dll = Some [1; 2; 3; 4; 5; 6].
Proof.
  assert (Hb : @built bump_allocator ∅ [6; 5; 4; 3; 2; 1] dll_heap dll)
    by (vm_compute; reflexivity).
  split; [exact Hb|].
  pose proof (@insert_at_head_traversal bump_allocator bump_laws _ _ _ _ Hb)
    as (Hs & Ht & _).
  split; [exact Hs|]. apply (Ht 7%nat). simpl. lia.
Defined.

Lemma advance_by_refines_advance_one_witness :
  @built bump_allocator ∅ [6; 5; 4; 3; 2; 1] dll_heap dll ∧
  0 ≤ 2 < size_ dll ∧
  iters !! iter = Some (begin dll) ∧
  ∃ it' v,
    operator_plus dll_heap iter 2 iters = Some (iter, <[iter := it']> iters) ∧
    incr_times dll_heap 2 iter iters = Some (iter, <[iter := it']> iters) ∧
    deref_at dll_heap iter (<[iter := it']> iters) = Some v ∧
    [1; 2; 3; 4; 5; 6] !! 2%nat = Some v.
Proof.
  assert (Hb : @built bump_allocator ∅ [6; 5; 4; 3; 2; 1] dll_heap dll)
    by (vm_compute; reflexivity).
  assert (Hk : 0 ≤ 2 < size_ dll) by (simpl; lia).
  assert (Hit : iters !! iter = Some (begin dll)) by reflexivity.
  split; [exact Hb|]. split; [exact Hk|]. split; [exact Hit|].
  exact (@advance_by_refines_advance_one bump_allocator bump_laws _ _ _ _ 2
           iters iter Hb Hk Hit).
Defined.

Lemma end_reached_after_size_witness :
  @built bump_allocator ∅ [6; 5; 4; 3; 2; 1] dll_heap dll ∧
  iters !! iter = Some (begin dll) ∧
  incr_times dll_heap 6 iter iters = Some (iter, <[iter := end_ dll]> iters).
Proof.
  assert (Hb : @built bump_allocator ∅ [6; 5; 4; 3; 2; 1] dll_heap dll)
    by (vm_compute; reflexivity).
  assert (Hit : iters !! iter = Some (begin dll)) by reflexivity.
  split; [exact Hb|]. split; [exact Hit|].
  exact (proj1 (@end_reached_after_size bump_allocator bump_laws _ _ _ _
                  iters iter Hb Hit)).
Defined.

Lemma destructor_releases_each_node_once_witness :
  @built bump_allocator ∅ [6; 5; 4; 3; 2; 1] dll_heap dll ∧
  (length [6; 5; 4; 3; 2; 1] ≤ 6)%nat ∧
  ∃ d' freed,
    dtor 6 (dll_heap, dll) = Some (∅, d', freed) ∧
    head_ d' = nullptr ∧ NoDup freed ∧ length freed = 6%nat.
Proof.
  assert (Hb : @built bump_allocator ∅ [6; 5; 4; 3; 2; 1] dll_heap dll)
    by (vm_compute; reflexivity).
  assert (Hf : (length [6; 5; 4; 3; 2; 1] ≤ 6)%nat) by (simpl; lia).
  split; [exact Hb|]. split; [exact Hf|].
  destruct (@destructor_releases_each_node_once bump_allocator bump_laws
              _ _ _ _ 6%nat Hb Hf) as (d' & freed & Hrun & Hhead & Hnd & Hlen & _).
  exists d', freed. split; [exact Hrun|]. split; [exact Hhead|].
  split; [exact Hnd|]. exact Hlen.
Defined.

Lemma advance_by_zero_identity_witness :
  iters !! iter = Some (begin dll) ∧
  plus_body dll_heap 0 (begin dll) = Some (begin dll) ∧
  operator_plus dll_heap iter 0 iters = Some (iter, iters).
Proof.
  assert (Hit : iters !! iter = Some (begin dll)) by reflexivity.
  split; [exact Hit|].
  exact (advance_by_zero_identity dll_heap iters iter (begin dll) Hit).
Defined.

End instances.

(** * Further properties *)

(** ** The linked list *)

Section dll_more.
Import DLL Repr.
Implicit Types (h : heap) (p prev : ptr) (cells : list (ptr * Z)).

(** The node at position [k] of a chain, with both its links. *)
Lemma chain_node h cells : ∀ k p prev,
  chain h p prev cells → (k < length cells)%nat →
  ptr_at cells k ≠ nullptr ∧
  ∃ v, cells.*2 !! k = Some v ∧
       h !! ptr_at cells k =
       Some {| next_ := ptr_at cells (S k);
               prev_ := match k with
                        | O => prev
                        | S k' => ptr_at cells k'
                        end;
               value_ := v |}.
Proof.
  induction cells as [|[a v] rest IH]; intros k p prev Hc Hk.
  - simpl in Hk. lia.
  - destruct Hc as (-> & Ha & nx & Hl & Hrest). destruct k as [|k].
    + split; [done|]. exists v. split; [done|].
      rewrite ptr_at_cons, <- (chain_head _ _ _ _ Hrest). done.
    + destruct (IH k nx a Hrest) as (Hnn & w & Hw & Hnode);
        [simpl in Hk; lia|].
      rewrite !ptr_at_cons. split; [done|]. exists w. split; [done|].
      rewrite Hnode. by destruct k.
Qed.

(** Where [k] rounds of the loop of [operator+] can lead. *)
Lemma plus_loop_position h cells k p prev it :
  chain h p prev cells → plus_loop h k {| curr_ := p |} = Some it →
  (k ≤ length cells)%nat ∧ it = {| curr_ := ptr_at cells k |}.
Proof.
  intros Hc Hrun. destruct (decide (k ≤ length cells)%nat) as [Hk|Hk].
  - rewrite (plus_loop_chain _ _ _ _ _ Hc Hk) in Hrun. by injection Hrun as <-.
  - rewrite (plus_loop_past _ _ _ _ _ Hc) in Hrun by lia. done.
Qed.

Lemma plus_loop_add h (a b : nat) : ∀ it,
  plus_loop h (a + b) it = plus_loop h a it ≫= plus_loop h b.
Proof.
  induction a as [|a IH]; intros it; [done|]. simpl.
  destruct (incr_body h it) as [it1|]; [|done]. simpl. apply IH.
Qed.

Lemma load_live h p : p ≠ nullptr → load h p = h !! p.
Proof. intros Hp. unfold load. by rewrite decide_False. Qed.

Lemma load_nullptr h : load h nullptr = None.
Proof. done. Qed.

Context `{Alloc : Allocator} `{Laws : !AllocatorLaws}.

(** X1: the list is linked both ways.  For the node an iterator reaches
    after [k] steps from [begin()]: the first node's [prev_] is [nullptr];
    its [next_] is [nullptr] exactly when it is the last node; otherwise
    [next_] is a live node whose [prev_] points back to it. *)
Theorem links_are_mutual (h0 : heap) (vals : list Z) (h : heap) (d : DLL)
    (k : nat) (it : DLLIterator) (n : Node) :
  built h0 vals h d →
  plus_loop h k (begin d) = Some it → load h (curr_ it) = Some n →
  (k = O → prev_ n = nullptr) ∧
  (next_ n = nullptr ↔ S k = length vals) ∧
  (next_ n ≠ nullptr →
     ∃ n', load h (next_ n) = Some n' ∧ prev_ n' = curr_ it).
Proof.
  intros Hb Hrun Hn.
  destruct (built_inv _ _ _ _ Hb) as (cells & Hinv & Hvals & Hlen).
  pose proof (inv_chain _ _ _ _ Hinv) as Hc.
  destruct (plus_loop_position _ _ _ _ _ _ Hc Hrun) as [Hk ->]. simpl in *.
  assert (Hlt : (k < length cells)%nat).
  { destruct (decide (k < length cells)%nat); [done|].
    rewrite ptr_at_end in Hn by lia. done. }
  destruct (chain_node _ _ _ _ _ Hc Hlt) as (Hnn & v & Hv & Hnode).
  rewrite load_live, Hnode in Hn by done. injection Hn as <-. simpl.
  split; [by intros ->|]. split.
  - split.
    + intros Hnull. destruct (decide (S k < length cells)%nat) as [Hs|Hs].
      * by destruct (chain_node _ _ _ _ _ Hc Hs) as [Hnn' _].
      * lia.
    + intros Hs. apply ptr_at_end. lia.
  - intros Hnext. assert (Hs : (S k < length cells)%nat).
    { destruct (decide (S k < length cells)%nat); [done|].
      rewrite ptr_at_end in Hnext by lia. done. }
    destruct (chain_node _ _ _ _ _ Hc Hs) as (Hnn' & w & Hw & Hnode').
    eexists. rewrite load_live by done. split; [exact Hnode'|]. done.
Qed.

(** X2: building a list leaves every node that was in the heap before as
    it was, and takes exactly one new node for each value inserted. *)
Theorem insertions_frame (h0 : heap) (vals : list Z) (h : heap) (d : DLL) :
  built h0 vals h d →
  h0 ⊆ h ∧ size h = (size h0 + length vals)%nat.
Proof.
  intros Hb.
  destruct (built_inv _ _ _ _ Hb) as (cells & Hinv & Hvals & Hlen).
  pose proof (inv_chain _ _ _ _ Hinv) as Hc.
  pose proof (inv_nodup _ _ _ _ Hinv) as Hnd.
  split.
  - apply map_subseteq_spec. intros a x Hx.
    rewrite (inv_frame _ _ _ _ Hinv); [done|]. intros Hin.
    rewrite (inv_owned _ _ _ _ Hinv) in Hx; done.
  - assert (Hdom : dom h = dom h0 ∪ list_to_set cells.*1).
    { apply set_eq. intros a.
      rewrite elem_of_union, elem_of_list_to_set, !elem_of_dom.
      destruct (decide (a ∈ cells.*1)) as [Hin|Hni].
      - split; [by right|]. intros _. by eapply chain_live.
      - rewrite (inv_frame _ _ _ _ Hinv) by done.
        split; [by left|]. by intros [?|?]. }
    rewrite <- !size_dom, Hdom, size_union.
    + rewrite size_list_to_set by done. rewrite length_fmap. lia.
    + intros a Ha Hin. apply elem_of_list_to_set in Hin.
      apply elem_of_dom in Ha as [x Hx].
      rewrite (inv_owned _ _ _ _ Hinv) in Hx; done.
Qed.

(** X3: nothing is checked at the end of the list.  [*end()] and
    [++end()] read through [nullptr], and [begin() + k] with [k] beyond the
    size runs into it: all three are undefined. *)
Theorem past_the_end_undefined (h0 : heap) (vals : list Z) (h : heap)
    (d : DLL) (σ : iterators) (this : nat) (k : Z) :
  built h0 vals h d → σ !! this = Some (begin d) →
  size_ d < k < size_t_modulus →
  operator_plus h this k σ = None ∧
  operator_deref h (end_ d) = None ∧
  incr_body h (end_ d) = None ∧
  (∀ r σ', incr_times h (Z.to_nat (size_ d)) this σ = Some (r, σ') →
           deref_at h r σ' = None ∧ operator_incr h r σ' = None).
Proof.
  intros Hb Hit Hk.
  destruct (built_inv _ _ _ _ Hb) as (cells & Hinv & Hvals & Hlen).
  pose proof (inv_chain _ _ _ _ Hinv) as Hc.
  pose proof (inv_size _ _ _ _ Hinv) as Hs.
  split; [|split; [done|split; [done|]]].
  - unfold operator_plus, on_this, plus_body, size_t_wrap. rewrite Hit. simpl.
    rewrite Z.mod_small by lia. unfold begin.
    rewrite (plus_loop_past _ _ _ _ _ Hc); [done|lia].
  - intros r σ' Hrun.
    rewrite (incr_times_plus_loop _ _ _ _ _ Hit) in Hrun. unfold begin in Hrun.
    rewrite (plus_loop_chain _ _ _ _ _ Hc) in Hrun by lia. simpl in Hrun.
    injection Hrun as <- <-. rewrite ptr_at_end by lia.
    unfold deref_at, operator_incr, on_this. by rewrite lookup_insert_eq.
Qed.

(** X4: [(it + a) + b], with the second [+] applied to the reference the
    first returns, is [it + (a + b)] on every heap and from every position,
    defined or not, as long as [a + b] is a [size_t]. *)
Theorem operator_plus_chain (h : heap) (σ : iterators) (this : nat)
    (it : DLLIterator) (a b : Z) :
  σ !! this = Some it → 0 ≤ a → 0 ≤ b → a + b < size_t_modulus →
  operator_plus h this a σ ≫= (λ '(r, σ'), operator_plus h r b σ')
  = operator_plus h this (a + b) σ.
Proof.
  intros Hit Ha Hb Hab.
  unfold operator_plus, on_this, plus_body, size_t_wrap. rewrite Hit. simpl.
  rewrite !Z.mod_small by lia. rewrite Z2Nat.inj_add by lia.
  rewrite plus_loop_add.
  destruct (plus_loop h (Z.to_nat a) it) as [it1|]; [|done]. simpl.
  rewrite lookup_insert_eq. simpl.
  destruct (plus_loop h (Z.to_nat b) it1) as [it2|]; [|done]. simpl.
  by rewrite insert_insert_eq.
Qed.

(** X5: [InsertAtHead] does not invalidate iterators.  An iterator at
    any position of the list (or at the end) reads the same value and steps
    to the same node after a further insertion; it is one step further from
    the new [begin()], which reads the value just inserted. *)
Theorem insert_keeps_iterators (h0 : heap) (vals : list Z) (h : heap)
    (d : DLL) (v : Z) (h' : heap) (d' : DLL) (k : nat) (it : DLLIterator) :
  built h0 vals h d → InsertAtHead v (h, d) = Some (h', d') →
  plus_loop h k (begin d) = Some it →
  operator_deref h' it = operator_deref h it ∧
  incr_body h' it = incr_body h it ∧
  plus_loop h' (S k) (begin d') = Some it ∧
  operator_deref h' (begin d') = Some v.
Proof.
  intros Hb Hins Hrun.
  destruct (built_inv _ _ _ _ Hb) as (cells & Hinv & Hvals & Hlen).
  pose proof (inv_chain _ _ _ _ Hinv) as Hc.
  pose proof (InsertAtHead_inv _ _ _ _ _ _ _ Hinv Hins) as Hinv'.
  pose proof (inv_chain _ _ _ _ Hinv') as Hc'.
  set (cells' := (head_ d', v) :: cells) in *.
  destruct (plus_loop_position _ _ _ _ _ _ Hc Hrun) as [Hk ->].
  assert (Hfirst : operator_deref h' (begin d') = Some v).
  { destruct (chain_node _ _ _ _ _ Hc' (Nat.lt_0_succ _))
      as (Hnn & w & Hw & Hnode).
    unfold operator_deref, begin. simpl in *. injection Hw as <-.
    rewrite load_live by done. unfold ptr_at in Hnode. simpl in Hnode.
    by rewrite Hnode. }
  assert (Hfar : plus_loop h' (S k) (begin d')
                 = Some {| curr_ := ptr_at cells k |}).
  { unfold begin. rewrite (plus_loop_chain _ _ _ _ _ Hc') by (simpl; lia).
    done. }
  assert (Hsame : operator_deref h' {| curr_ := ptr_at cells k |}
                  = operator_deref h {| curr_ := ptr_at cells k |} ∧
                  incr_body h' {| curr_ := ptr_at cells k |}
                  = incr_body h {| curr_ := ptr_at cells k |}).
  { destruct (decide (k < length cells)%nat) as [Hlt|Hge].
    - destruct (chain_node _ _ _ _ _ Hc Hlt) as (Hnn & w & Hw & Hnode).
      assert (Hlt' : (S k < length cells')%nat) by (simpl; lia).
      destruct (chain_node _ _ _ _ _ Hc' Hlt') as (_ & w' & Hw' & Hnode').
      unfold cells' in Hnode', Hw'. rewrite !ptr_at_cons in Hnode'.
      change (cells.*2 !! k = Some w') in Hw'.
      rewrite Hw in Hw'. injection Hw' as <-.
      unfold operator_deref, incr_body. simpl.
      rewrite !load_live by done. rewrite Hnode, Hnode'. done.
    - rewrite ptr_at_end by lia. done. }
  destruct Hsame as [Hd Hi]. done.
Qed.

(** X6: two lists in one heap do not disturb each other.  With a second
    list built after the first, the first still reads the same; destroying
    the first leaves the second readable, and destroying the second as well
    gives back the heap from before either list was built. *)
Theorem lists_do_not_interfere (h0 : heap) (vals1 : list Z) (h1 : heap)
    (d1 : DLL) (vals2 : list Z) (h2 : heap) (d2 : DLL) (fuel1 fuel2 : nat) :
  built h0 vals1 h1 d1 → built h1 vals2 h2 d2 →
  (length vals1 < fuel1)%nat → (length vals2 < fuel2)%nat →
  traverse fuel1 h2 d1 = Some (rev vals1) ∧
  ∃ h3 d1' freed1,
    dtor fuel1 (h2, d1) = Some (h3, d1', freed1) ∧
    traverse fuel2 h3 d2 = Some (rev vals2) ∧
    ∃ d2' freed2, dtor fuel2 (h3, d2) = Some (h0, d2', freed2).
Proof.
  intros Hb1 Hb2 Hf1 Hf2.
  destruct (built_inv _ _ _ _ Hb1) as (cells1 & Hinv1 & Hvals1 & Hlen1).
  destruct (built_inv _ _ _ _ Hb2) as (cells2 & Hinv2 & Hvals2 & Hlen2).
  pose proof (inv_chain _ _ _ _ Hinv1) as Hc1.
  pose proof (inv_chain _ _ _ _ Hinv2) as Hc2.
  assert (Hdisj : ∀ a, a ∈ cells1.*1 → a ∉ cells2.*1).
  { intros a Ha1 Ha2. destruct (chain_live _ _ _ _ _ Hc1 Ha1) as [[x Hx] _].
    rewrite (inv_owned _ _ _ _ Hinv2) in Hx; done. }
  assert (Hc12 : chain h2 (head_ d1) nullptr cells1).
  { eapply chain_frame; [exact Hc1|]. intros a Ha.
    apply (inv_frame _ _ _ _ Hinv2). by apply Hdisj. }
  split.
  { unfold traverse, begin. rewrite <- Hvals1.
    eapply traverse_from_chain; [exact Hc12|]. lia. }
  destruct (dtor_loop_chain cells1 fuel1 h2 (head_ d1) nullptr [] Hc12
              (inv_nodup _ _ _ _ Hinv1)) as (h3 & Hrun3 & Hgone3 & Hkept3);
    [lia|].
  exists h3, {| head_ := nullptr; size_ := size_ d1 |}, cells1.*1.
  split; [unfold dtor; by rewrite Hrun3|].
  assert (Hc23 : chain h3 (head_ d2) nullptr cells2).
  { eapply chain_frame; [exact Hc2|]. intros a Ha. apply Hkept3.
    intros Ha1. by eapply Hdisj. }
  split.
  { unfold traverse, begin. rewrite <- Hvals2.
    eapply traverse_from_chain; [exact Hc23|]. lia. }
  destruct (dtor_loop_chain cells2 fuel2 h3 (head_ d2) nullptr [] Hc23
              (inv_nodup _ _ _ _ Hinv2)) as (h4 & Hrun4 & Hgone4 & Hkept4);
    [lia|].
  assert (Hh4 : h4 = h0).
  { apply map_eq. intros a.
    destruct (decide (a ∈ cells2.*1)) as [Hin2|Hni2].
    - rewrite Hgone4 by done. symmetry.
      pose proof (inv_owned _ _ _ _ Hinv2 a Hin2) as Hnone.
      destruct (decide (a ∈ cells1.*1)) as [Hin1|Hni1].
      + by apply (inv_owned _ _ _ _ Hinv1).
      + by rewrite <- (inv_frame _ _ _ _ Hinv1).
    - rewrite Hkept4 by done.
      destruct (decide (a ∈ cells1.*1)) as [Hin1|Hni1].
      + rewrite Hgone3 by done. symmetry.
        by apply (inv_owned _ _ _ _ Hinv1).
      + rewrite Hkept3 by done. rewrite (inv_frame _ _ _ _ Hinv2) by done.
        by apply (inv_frame _ _ _ _ Hinv1). }
  subst h4.
  exists {| head_ := nullptr; size_ := size_ d2 |}, cells2.*1.
  unfold dtor. by rewrite Hrun4.
Qed.

End dll_more.

(** ** Printing vectors *)

Section printing.
Import Vectors Text.

Lemma append_nil_l (s : string) : "" +:+ s = s.
Proof. done. Qed.

Lemma append_cons (c : Ascii.ascii) (s1 s2 : string) :
  String c s1 +:+ s2 = String c (s1 +:+ s2).
Proof. done. Qed.

Lemma append_assoc (s1 s2 s3 : string) :
  (s1 +:+ s2) +:+ s3 = s1 +:+ (s2 +:+ s3).
Proof.
  induction s1 as [|c s1 IH]; [done|]. rewrite !append_cons. by f_equal.
Qed.

Lemma pretty_N_char_plain (x : N) : separator (pretty_N_char x) = false.
Proof. unfold pretty_N_char. by repeat case_match. Qed.

Lemma pretty_N_go_token (x : N) : ∀ s,
  is_token (pretty_N_go x s) = is_token s.
Proof.
  induction (N.lt_wf_0 x) as [x _ IH]; intros s.
  destruct (decide (x = 0)%N) as [->|Hx].
  - by rewrite pretty_N_go_0.
  - rewrite pretty_N_go_step by lia. rewrite IH by (apply N.div_lt; lia).
    simpl. by rewrite pretty_N_char_plain.
Qed.

Lemma pretty_N_token (x : N) : is_token (pretty x) = true.
Proof.
  unfold pretty, pretty_N. case_decide; [done|]. by rewrite pretty_N_go_token.
Qed.

(** A number is written with digits and a sign only. *)
Lemma pretty_Z_token (z : Z) : is_token (pretty z) = true.
Proof.
  destruct z as [|p|p]; [done| |].
  - apply (pretty_N_token (Npos p)).
  - change (is_token ("-" +:+ pretty (Npos p)) = true).
    rewrite append_cons, append_nil_l. simpl.
    apply (pretty_N_token (Npos p)).
Qed.

(** Two texts that agree are cut at their first separator in the same
    way. *)
Lemma token_split (s1 s2 : string) (c1 c2 : Ascii.ascii) (r1 r2 : string) :
  is_token s1 = true → is_token s2 = true →
  separator c1 = true → separator c2 = true →
  s1 +:+ String c1 r1 = s2 +:+ String c2 r2 →
  s1 = s2 ∧ c1 = c2 ∧ r1 = r2.
Proof.
  revert s2. induction s1 as [|a s1 IH]; intros [|b s2] Ht1 Ht2 Hc1 Hc2 Heq;
    rewrite ?append_nil_l, ?append_cons in Heq; simpl in Ht1, Ht2.
  - by injection Heq as -> ->.
  - injection Heq as -> ->. rewrite Hc1 in Ht2. done.
  - injection Heq as -> <-. rewrite Hc2 in Ht1. done.
  - injection Heq as -> Heq.
    apply andb_true_iff in Ht1 as [_ Ht1].
    apply andb_true_iff in Ht2 as [_ Ht2].
    destruct (IH s2 Ht1 Ht2 Hc1 Hc2 Heq) as (-> & -> & ->). done.
Qed.

Lemma print_elems_app (v1 v2 : list Z) :
  print_elems (v1 ++ v2) = print_elems v1 +:+ print_elems v2.
Proof.
  induction v1 as [|e v1 IH]; simpl; [done|].
  by rewrite IH, !append_assoc.
Qed.

Lemma print_elems_cons (e : Z) (v : list Z) (s : string) :
  print_elems (e :: v) +:+ s = pretty e +:+ String space (print_elems v +:+ s).
Proof. simpl. by rewrite !append_assoc. Qed.

(** X7: the line [print_int_vector] writes tells the vector: two
    vectors that print the same are equal. *)
Theorem print_int_vector_inj (v1 v2 : list Z) :
  print_int_vector v1 = print_int_vector v2 → v1 = v2.
Proof.
  unfold print_int_vector, newline. revert v2.
  induction v1 as [|e1 v1 IH]; intros [|e2 v2] Heq;
    rewrite ?print_elems_cons in Heq.
  - done.
  - destruct (token_split "" (pretty e2) line_feed space "" _
                eq_refl (pretty_Z_token e2) eq_refl eq_refl Heq)
      as (_ & Hc & _). done.
  - symmetry in Heq.
    destruct (token_split "" (pretty e1) line_feed space "" _
                eq_refl (pretty_Z_token e1) eq_refl eq_refl Heq)
      as (_ & Hc & _). done.
  - destruct (token_split (pretty e1) (pretty e2) space space _ _
                (pretty_Z_token e1) (pretty_Z_token e2) eq_refl eq_refl Heq)
      as (He & _ & Hrest).
    apply (inj pretty) in He as ->. f_equal. by apply IH.
Qed.

End printing.

(** ** Passing a vector by rvalue reference *)

Section rvalue_arguments.
Import Vectors.

(** X8: the two functions write the same line, the caller's elements
    followed by 3.  After [move_add_three_and_print] the caller's vector is
    empty, so every [vec[i]] is out of range; after [add_three_and_print] it
    holds the old elements, still at their indices, and 3 at the end; no
    other vector of the caller changes. *)
Theorem rvalue_argument_moved_or_kept (σ : vectors) (vec : nat) (v : list Z) :
  σ !! vec = Some v →
  ∃ σm σa,
    move_add_three_and_print vec σ = Some (print_int_vector (v ++ [3]), σm) ∧
    add_three_and_print vec σ = Some (print_int_vector (v ++ [3]), σa) ∧
    (∀ i, subscript σm vec i = None) ∧
    (∀ i x, v !! i = Some x → subscript σa vec i = Some x) ∧
    subscript σa vec (length v) = Some 3 ∧
    (∀ w, w ≠ vec → σm !! w = σ !! w ∧ σa !! w = σ !! w).
Proof.
  intros Hv. exists (<[vec := []]> σ), (<[vec := v ++ [3]]> σ).
  unfold move_add_three_and_print, add_three_and_print, subscript.
  rewrite Hv. simpl. rewrite !lookup_insert_eq. simpl.
  split; [done|]. split; [done|]. split; [done|]. split; [|split].
  - intros i x Hx. by apply lookup_app_l_Some.
  - rewrite lookup_app_r by lia. by rewrite Nat.sub_diag.
  - intros w Hw. by rewrite !lookup_insert_ne.
Qed.

End rvalue_arguments.

(** ** Person: where the content goes *)

Section person_more.
Import Person.
Context `{VectorMove}.
Implicit Types (σ : objects) (a b c x : nat) (pa pb : Person).

(** X9: move assignment between two objects replaces whatever the
    target held by the source's age and nicknames, index by index, returns
    the target, and changes no third object. *)
Theorem assign_transfers_content σ a b pa pb :
  σ !! a = Some pa → σ !! b = Some pb → b ≠ a →
  ∃ σ', operator_assign b a σ = Some (b, σ') ∧
        GetAge σ' b = Some (age_ pa) ∧
        (∀ i, GetNicknameAtI σ' b i = nicknames_ pa !! i) ∧
        nicknames_of σ' a = Some (assigned_from (nicknames_ pa)) ∧
        (∀ x, x ≠ a → x ≠ b → σ' !! x = σ !! x).
Proof.
  intros Ha Hb Hne. eexists.
  split; [by eapply operator_assign_distinct|].
  unfold GetAge, GetNicknameAtI, nicknames_of.
  rewrite lookup_insert_eq. rewrite !lookup_insert_ne by done.
  rewrite lookup_insert_eq. simpl.
  split; [done|]. split; [done|]. split; [done|].
  intros x Hxa Hxb. by rewrite !lookup_insert_ne.
Qed.

(** X10: the two moves of [main], one after the other, for any two
    objects: after [b = std::move(a); Person c(std::move(b));] the new
    object [c] is valid and has the age and the nicknames [a] started with;
    [PrintValid] writes the line for a valid object on [c] and the line for
    an invalid one on [a] and on [b]; and [b], moved from by construction,
    has no nickname left at any index. *)
Theorem moves_chain σ a b c pa pb :
  σ !! a = Some pa → σ !! b = Some pb → b ≠ a → σ !! c = None →
  ∃ σ1 σ2,
    operator_assign b a σ = Some (b, σ1) ∧
    Person_move c b σ1 = Some σ2 ∧
    σ2 !! c = Some {| age_ := age_ pa; nicknames_ := nicknames_ pa;
                      valid_ := true |} ∧
    PrintValid σ2 c = Some ("Object is valid." +:+ endl) ∧
    PrintValid σ2 b = Some ("Object is invalid." +:+ endl) ∧
    PrintValid σ2 a = Some ("Object is invalid." +:+ endl) ∧
    (∀ i, GetNicknameAtI σ2 b i = None).
Proof.
  intros Ha Hb Hne Hc.
  assert (Hca : c ≠ a) by congruence. assert (Hcb : c ≠ b) by congruence.
  eexists. eexists. split; [by eapply operator_assign_distinct|].
  split.
  { apply Person_move_fresh.
    - rewrite lookup_insert_ne by done. apply lookup_insert_eq.
    - by rewrite !lookup_insert_ne. }
  unfold PrintValid, is_valid, GetNicknameAtI. simpl.
  rewrite lookup_insert_eq.
  rewrite !(lookup_insert_ne _ b c) by done.
  rewrite !(lookup_insert_ne _ b a) by done.
  rewrite !(lookup_insert_ne _ c a) by done.
  rewrite !lookup_insert_eq. done.
Qed.

(** X11: an object that was moved from becomes valid again as the
    target of a move assignment.  After [b = std::move(a); a = std::move(b);]
    [a] is valid and holds the age and the nicknames it started with, and
    [b] is the invalid one. *)
Theorem move_there_and_back σ a b pa pb :
  σ !! a = Some pa → σ !! b = Some pb → b ≠ a →
  ∃ σ1 σ2,
    operator_assign b a σ = Some (b, σ1) ∧
    is_valid σ1 a = Some false ∧
    operator_assign a b σ1 = Some (a, σ2) ∧
    σ2 !! a = Some {| age_ := age_ pa; nicknames_ := nicknames_ pa;
                      valid_ := true |} ∧
    is_valid σ2 b = Some false ∧
    (∀ x, x ≠ a → x ≠ b → σ2 !! x = σ !! x).
Proof.
  intros Ha Hb Hne. eexists. eexists.
  split; [by eapply operator_assign_distinct|].
  split; [by rewrite is_valid_insert|]. split.
  { eapply operator_assign_distinct.
    - apply lookup_insert_eq.
    - rewrite lookup_insert_ne by done. apply lookup_insert_eq.
    - done. }
  simpl. split; [|split].
  - rewrite lookup_insert_ne by done. by rewrite lookup_insert_eq.
  - by rewrite is_valid_insert.
  - intros x Hxa Hxb. by rewrite !lookup_insert_ne.
Qed.

End person_more.

(** ** Instances of the further properties *)

Section more_instances.
Import DLL Repr Person Vectors Demo.

Lemma links_are_mutual_witness :
  @built bump_allocator ∅ [6; 5; 4; 3; 2; 1] dll_heap dll ∧
  plus_loop dll_heap 1 (begin dll) = Some (mkIter 5) ∧
  load dll_heap 5 = Some (mkNode 4 6 2) ∧
  ∃ n', load dll_heap 4 = Some n' ∧ prev_ n' = 5.
Proof.
  assert (Hb : @built bump_allocator ∅ [6; 5; 4; 3; 2; 1] dll_heap dll)
    by (vm_compute; reflexivity).
  assert (Hrun : plus_loop dll_heap 1 (begin dll) = Some (mkIter 5))
    by (vm_compute; reflexivity).
  assert (Hn : load dll_heap (curr_ (mkIter 5)) = Some (mkNode 4 6 2))
    by (vm_compute; reflexivity).
  split; [exact Hb|]. split; [exact Hrun|]. split; [exact Hn|].
  apply (proj2 (proj2 (@links_are_mutual bump_allocator bump_laws _ _ _ _
                         1%nat (mkIter 5) (mkNode 4 6 2) Hb Hrun Hn))).
  simpl. unfold nullptr. lia.
Defined.

Lemma insertions_frame_witness :
  @built bump_allocator ∅ [6; 5; 4; 3; 2; 1] dll_heap dll ∧
  size dll_heap = (size (∅ : heap) + 6)%nat.
Proof.
  assert (Hb : @built bump_allocator ∅ [6; 5; 4; 3; 2; 1] dll_heap dll)
    by (vm_compute; reflexivity).
  split; [exact Hb|].
  exact (proj2 (@insertions_frame bump_allocator bump_laws _ _ _ _ Hb)).
Defined.

Lemma past_the_end_undefined_witness :
  @built bump_allocator ∅ [6; 5; 4; 3; 2; 1] dll_heap dll ∧
  iters !! iter = Some (begin dll) ∧
  size_ dll < 7 < size_t_modulus ∧
  operator_plus dll_heap iter 7 iters = None.
Proof.
  assert (Hb : @built bump_allocator ∅ [6; 5; 4; 3; 2; 1] dll_heap dll)
    by (vm_compute; reflexivity).
  assert (Hit : iters !! iter = Some (begin dll)) by reflexivity.
  assert (Hk : size_ dll < 7 < size_t_modulus)
    by (unfold size_t_modulus; simpl; lia).
  split; [exact Hb|]. split; [exact Hit|]. split; [exact Hk|].
  exact (proj1 (@past_the_end_undefined bump_allocator bump_laws _ _ _ _
                  iters iter 7 Hb Hit Hk)).
Defined.

Lemma operator_plus_chain_witness :
  iters !! iter = Some (begin dll) ∧ 0 ≤ 1 ∧ 1 + 1 < size_t_modulus ∧
  operator_plus dll_heap iter 1 iters
    ≫= (λ '(r, σ'), operator_plus dll_heap r 1 σ')
  = operator_plus dll_heap iter (1 + 1) iters.
Proof.
  assert (Hit : iters !! iter = Some (begin dll)) by reflexivity.
  assert (H1 : 0 ≤ 1) by lia.
  assert (H2 : 1 + 1 < size_t_modulus) by (unfold size_t_modulus; lia).
  split; [exact Hit|]. split; [exact H1|]. split; [exact H2|].
  exact (operator_plus_chain dll_heap iters iter (begin dll) 1 1
           Hit H1 H1 H2).
Defined.

Lemma insert_keeps_iterators_witness :
  @built bump_allocator ∅ [6; 5; 4; 3; 2; 1] dll_heap dll ∧
  @InsertAtHead bump_allocator 0 (dll_heap, dll)
    = Some (<[7 := mkNode 6 0 0]> (<[6 := mkNode 5 7 1]> dll_heap),
            mkDLL 7 7) ∧
  plus_loop dll_heap 2 (begin dll) = Some (mkIter 4) ∧
  operator_deref (<[7 := mkNode 6 0 0]> (<[6 := mkNode 5 7 1]> dll_heap))
    (mkIter 4) = operator_deref dll_heap (mkIter 4).
Proof.
  assert (Hb : @built bump_allocator ∅ [6; 5; 4; 3; 2; 1] dll_heap dll)
    by (vm_compute; reflexivity).
  assert (Hins : @InsertAtHead bump_allocator 0 (dll_heap, dll)
            = Some (<[7 := mkNode 6 0 0]> (<[6 := mkNode 5 7 1]> dll_heap),
                    mkDLL 7 7)) by (vm_compute; reflexivity).
  assert (Hrun : plus_loop dll_heap 2 (begin dll) = Some (mkIter 4))
    by (vm_compute; reflexivity).
  split; [exact Hb|]. split; [exact Hins|]. split; [exact Hrun|].
  exact (proj1 (@insert_keeps_iterators bump_allocator bump_laws _ _ _ _ 0
                  _ _ 2%nat _ Hb Hins Hrun)).
Defined.

Lemma lists_do_not_interfere_witness :
  @built bump_allocator ∅ [1; 2]
    (list_to_map [(1, mkNode 0 2 1); (2, mkNode 1 0 2)]) (mkDLL 2 2) ∧
  @built bump_allocator
    (list_to_map [(1, mkNode 0 2 1); (2, mkNode 1 0 2)]) [3]
    (list_to_map [(1, mkNode 0 2 1); (2, mkNode 1 0 2); (3, mkNode 0 0 3)])
    (mkDLL 3 1) ∧
  (length [1; 2] < 3)%nat ∧ (length [3] < 2)%nat ∧
  traverse 3
    (list_to_map [(1, mkNode 0 2 1); (2, mkNode 1 0 2); (3, mkNode 0 0 3)])
    (mkDLL 2 2) = Some [2; 1].
Proof.
  assert (Hb1 : @built bump_allocator ∅ [1; 2]
            (list_to_map [(1, mkNode 0 2 1); (2, mkNode 1 0 2)]) (mkDLL 2 2))
    by (vm_compute; reflexivity).
  assert (Hb2 : @built bump_allocator
            (list_to_map [(1, mkNode 0 2 1); (2, mkNode 1 0 2)]) [3]
            (list_to_map [(1, mkNode 0 2 1); (2, mkNode 1 0 2);
                          (3, mkNode 0 0 3)])
            (mkDLL 3 1))
    by (vm_compute; reflexivity).
  assert (Hf1 : (length [1; 2] < 3)%nat) by (simpl; lia).
  assert (Hf2 : (length [3] < 2)%nat) by (simpl; lia).
  split; [exact Hb1|]. split; [exact Hb2|]. split; [exact Hf1|].
  split; [exact Hf2|].
  exact (proj1 (@lists_do_not_interfere bump_allocator bump_laws _ _ _ _ _ _
                  _ 3%nat 2%nat Hb1 Hb2 Hf1 Hf2)).
Defined.

Lemma print_int_vector_inj_witness :
  print_int_vector get_vector = print_int_vector [1; 2; 3; 4] ∧
  get_vector = [1; 2; 3; 4].
Proof.
  assert (Hp : print_int_vector get_vector = print_int_vector [1; 2; 3; 4])
    by reflexivity.
  split; [exact Hp|]. exact (print_int_vector_inj _ _ Hp).
Defined.

Lemma rvalue_argument_moved_or_kept_witness :
  ({[ 0%nat := [1; 2; 3; 4] ]} : vectors) !! 0%nat = Some [1; 2; 3; 4] ∧
  ∃ σm σa,
    move_add_three_and_print 0 {[ 0%nat := [1; 2; 3; 4] ]}
      = Some (print_int_vector [1; 2; 3; 4; 3], σm) ∧
    add_three_and_print 0 {[ 0%nat := [1; 2; 3; 4] ]}
      = Some (print_int_vector [1; 2; 3; 4; 3], σa) ∧
    subscript σm 0 1 = None ∧ subscript σa 0 1 = Some 2.
Proof.
  assert (Hv : ({[ 0%nat := [1; 2; 3; 4] ]} : vectors) !! 0%nat
               = Some [1; 2; 3; 4]) by reflexivity.
  split; [exact Hv|].
  destruct (rvalue_argument_moved_or_kept _ _ _ Hv)
    as (σm & σa & Hm & Ha & Hgone & Hkept & _).
  exists σm, σa. split; [exact Hm|]. split; [exact Ha|].
  split; [apply Hgone|]. apply Hkept. reflexivity.
Defined.

Lemma assign_transfers_content_witness :
  two_objects !! andy = Some andy_person ∧
  two_objects !! andy1 = Some (mkPerson 0 [] true) ∧
  andy1 ≠ andy ∧
  ∃ σ', @operator_assign stolen_buffer andy1 andy two_objects
          = Some (andy1, σ') ∧
        GetAge σ' andy1 = Some 15445.
Proof.
  assert (H1 : two_objects !! andy = Some andy_person) by reflexivity.
  assert (H2 : two_objects !! andy1 = Some (mkPerson 0 [] true))
    by reflexivity.
  assert (H3 : andy1 ≠ andy) by (unfold andy1, andy; lia).
  split; [exact H1|]. split; [exact H2|]. split; [exact H3|].
  destruct (@assign_transfers_content stolen_buffer _ _ _ _ _ H1 H2 H3)
    as (σ' & Hrun & Hage & _).
  exists σ'. split; [exact Hrun|exact Hage].
Defined.

Lemma moves_chain_witness :
  two_objects !! andy = Some andy_person ∧
  two_objects !! andy1 = Some (mkPerson 0 [] true) ∧
  andy1 ≠ andy ∧ two_objects !! andy2 = None ∧
  ∃ σ1 σ2,
    @operator_assign stolen_buffer andy1 andy two_objects
      = Some (andy1, σ1) ∧
    Person_move andy2 andy1 σ1 = Some σ2 ∧
    σ2 !! andy2 = Some andy_person ∧
    PrintValid σ2 andy2 = Some ("Object is valid." +:+ endl) ∧
    PrintValid σ2 andy1 = Some ("Object is invalid." +:+ endl).
Proof.
  assert (H1 : two_objects !! andy = Some andy_person) by reflexivity.
  assert (H2 : two_objects !! andy1 = Some (mkPerson 0 [] true))
    by reflexivity.
  assert (H3 : andy1 ≠ andy) by (unfold andy1, andy; lia).
  assert (H4 : two_objects !! andy2 = None) by reflexivity.
  split; [exact H1|]. split; [exact H2|]. split; [exact H3|].
  split; [exact H4|].
  destruct (@moves_chain stolen_buffer _ _ _ _ _ _ H1 H2 H3 H4)
    as (σ1 & σ2 & Hrun1 & Hrun2 & Hc & Hpc & Hpb & _).
  exists σ1, σ2. split; [exact Hrun1|]. split; [exact Hrun2|].
  split; [exact Hc|]. split; [exact Hpc|exact Hpb].
Defined.

Lemma move_there_and_back_witness :
  two_objects !! andy = Some andy_person ∧
  two_objects !! andy1 = Some (mkPerson 0 [] true) ∧
  andy1 ≠ andy ∧
  ∃ σ1 σ2,
    @operator_assign stolen_buffer andy1 andy two_objects
      = Some (andy1, σ1) ∧
    @operator_assign stolen_buffer andy andy1 σ1 = Some (andy, σ2) ∧
    σ2 !! andy = Some andy_person.
Proof.
  assert (H1 : two_objects !! andy = Some andy_person) by reflexivity.
  assert (H2 : two_objects !! andy1 = Some (mkPerson 0 [] true))
    by reflexivity.
  assert (H3 : andy1 ≠ andy) by (unfold andy1, andy; lia).
  split; [exact H1|]. split; [exact H2|]. split; [exact H3|].
  destruct (@move_there_and_back stolen_buffer _ _ _ _ _ H1 H2 H3)
    as (σ1 & σ2 & Hrun1 & _ & Hrun2 & Ha & _).
  exists σ1, σ2. split; [exact Hrun1|]. split; [exact Hrun2|exact Ha].
Defined.

End more_instances.
